(** * Networking-Tests: the epoll echo server and the scalability tester

  A shallow embedding of the parts of [server.cpp] and [tester.cpp] that
  decide what the server puts on the wire and what the tester reports,
  followed by the properties proved about them.

  Conventions.
  - C++ integers are [Z]; every conversion that can wrap is written out
    ([size_t], [ssize_t], [int32]).  The target is LP64 Linux, the only
    platform the server builds for (it needs epoll).
  - A [char] array on the stack is a [list cell]; a cell that was never
    written is [None].
  - The host byte order is a parameter ([byte_order]): [ntohl] and the
    in-memory layout of a [uint32_t] depend on it.
  - System calls are modelled by their results: a receive queue for
    [recvfrom]/[read], a list of outcomes for [write]/[sendto]. *)

From Stdlib Require Import ZArith Lia Strings.Byte Strings.String.
From Stdlib Require Import Sorting.Sorted Sorting.Permutation.
From Stdlib Require Floats.SpecFloat.
From stdpp Require Import base option list gmap.

Open Scope Z_scope.

(* ================================================================== *)
(** * Machine integers and raw memory                                  *)
(* ================================================================== *)

Module Machine.

(** [size_t]: unsigned 64-bit. *)
Definition size_t (z : Z) : Z := z mod 2 ^ 64.

(** [ssize_t]: signed 64-bit (conversion from an unsigned value). *)
Definition ssize_t (z : Z) : Z := (z + 2 ^ 63) mod 2 ^ 64 - 2 ^ 63.

(** [int] and [std::atomic<int>]: signed 32-bit, two's complement. *)
Definition int32 (z : Z) : Z := (z + 2 ^ 31) mod 2 ^ 32 - 2 ^ 31.

Definition INT_MAX : Z := 2 ^ 31 - 1.

(** A value of type [int]. *)
Definition is_int (x : Z) : Prop := - 2 ^ 31 <= x <= INT_MAX.

(** [sizeof(uint32_t)]. *)
Definition sizeof_uint32_t : Z := 4.

Inductive byte_order := LittleEndian | BigEndian.

(** One [char] of memory; [None] is an indeterminate value. *)
Definition cell := option byte.

Definition byte_to_Z (b : byte) : Z := Z.of_N (Byte.to_N b).

Definition byte_of_Z (z : Z) : byte :=
  default x00 (Byte.of_N (Z.to_N (z mod 256))).

(** Reading a cell as an unsigned char.  The server only reads the id
    from cells the datagram was received into (lemma
    [quic_connection_id_received] below), so the value given to an
    indeterminate cell is never observed. *)
Definition cell_value (c : cell) : Z := from_option byte_to_Z 0 c.

(** A fresh automatic array [char a[n]]. *)
Definition uninitialised (n : Z) : list cell := replicate (Z.to_nat n) None.

(** [memcpy(dst + doff, src + soff, n)] on arrays. *)
Definition memcpy (dst : list cell) (doff : Z) (src : list cell) (soff n : Z)
  : list cell :=
  take (Z.to_nat doff) dst
    ++ take (Z.to_nat n) (drop (Z.to_nat soff) src)
    ++ drop (Z.to_nat (doff + n)) dst.

(** [a[i] = c]. *)
Definition store (a : list cell) (i : Z) (c : byte) : list cell :=
  <[Z.to_nat i := Some c]> a.



(** The four bytes of a [uint32_t] object, lowest address first. *)
Definition uint32_bytes (o : byte_order) (x : Z) : list cell :=
  let b k := Some (byte_of_Z (Z.shiftr x (8 * k))) in
  match o with
  | LittleEndian => [b 0; b 1; b 2; b 3]
  | BigEndian => [b 3; b 2; b 1; b 0]
  end.

(** [memcpy(&x, a, sizeof(uint32_t))]: the value of the [uint32_t] whose
    object representation is the first four cells of [a]. *)
Definition load_u32 (o : byte_order) (a : list cell) : Z :=
  let v k := cell_value (default None (a !! k)) in
  match o with
  | LittleEndian =>
      v 0%nat + Z.shiftl (v 1%nat) 8 + Z.shiftl (v 2%nat) 16
        + Z.shiftl (v 3%nat) 24
  | BigEndian =>
      v 3%nat + Z.shiftl (v 2%nat) 8 + Z.shiftl (v 1%nat) 16
        + Z.shiftl (v 0%nat) 24
  end.

(** Byte swap of a 32-bit value. *)
Definition bswap32 (x : Z) : Z :=
  Z.shiftl (Z.land x 255) 24
    + Z.shiftl (Z.land (Z.shiftr x 8) 255) 16
    + Z.shiftl (Z.land (Z.shiftr x 16) 255) 8
    + Z.land (Z.shiftr x 24) 255.

(** [ntohl]: network (big-endian) to host order. *)
Definition ntohl (o : byte_order) (x : Z) : Z :=
  match o with
  | LittleEndian => bswap32 x
  | BigEndian => x
  end.

(** The value of four bytes read as a big-endian number. *)
Definition big_endian (b0 b1 b2 b3 : byte) : Z :=
  byte_to_Z b0 * 2 ^ 24 + byte_to_Z b1 * 2 ^ 16
    + byte_to_Z b2 * 2 ^ 8 + byte_to_Z b3.

End Machine.

(* ================================================================== *)
(** * server.cpp                                                       *)
(* ================================================================== *)

Module Server.
Import Machine.

Definition BUFFER_SIZE : Z := 1024.

(** [struct sockaddr_in]: address and port of the peer. *)
Record sockaddr_in := { sin_addr : Z; sin_port : Z }.

(** [std::chrono::steady_clock::time_point]. *)
Definition time_point := Z.

Record QuicConnection := {
  connection_id : Z;
  client_addr : sockaddr_in;
  last_activity : time_point;
  established : bool
}.

(** The constructor [QuicConnection(id, addr)], run at time [now]. *)
Definition QuicConnection_new (id : Z) (addr : sockaddr_in) (now : time_point)
  : QuicConnection :=
  {| connection_id := id; client_addr := addr;
     last_activity := now; established := false |}.

(** [c.last_activity = now]. *)
Definition QuicConnection_touch (c : QuicConnection) (now : time_point)
  : QuicConnection :=
  {| connection_id := connection_id c; client_addr := client_addr c;
     last_activity := now; established := established c |}.

(** The members of [EpollServer] the datagram handlers use. *)
Record EpollServer := {
  udp_packets : Z;
  quic_connections : Z;
  quic_connections_map : gmap Z QuicConnection
}.

Definition EpollServer_new : EpollServer :=
  {| udp_packets := 0; quic_connections := 0; quic_connections_map := ∅ |}.

(** ** The pseudo-QUIC handler *)

(** The literal ["QUIC Echo: "] (the first 11 bytes are copied). *)
Definition quic_marker : list cell :=
  Some <$> String.list_byte_of_string "QUIC Echo: ".

(** What one loop iteration hands to [sendto]. *)
Record quic_reply := {
  response : list cell;      (* the array [char response[BUFFER_SIZE]] *)
  response_size : Z;         (* the length argument *)
  reply_to : sockaddr_in     (* the destination *)
}.

(** [recvfrom(fd, buffer, cap, ...)] of a datagram [data]: the datagram
    is cut to [cap] bytes, which overwrite the start of [buffer]. *)
Definition recvfrom (buffer : list cell) (cap : Z) (data : list byte)
  : Z * list cell :=
  let got := take (Z.to_nat cap) data in
  (Z.of_nat (length got),
   (Some <$> got) ++ drop (length got) buffer).

(** "Track or update connection": lines 383-394. *)
Definition quic_track (srv : EpollServer) (id : Z) (addr : sockaddr_in)
    (now : time_point) : EpollServer :=
  match quic_connections_map srv !! id with
  | None =>
      {| udp_packets := udp_packets srv;
         quic_connections := int32 (quic_connections srv + 1);
         quic_connections_map :=
           <[id := QuicConnection_new id addr now]> (quic_connections_map srv) |}
  | Some c =>
      {| udp_packets := udp_packets srv;
         quic_connections := quic_connections srv;
         quic_connections_map :=
           <[id := QuicConnection_touch c now]> (quic_connections_map srv) |}
  end.

(** "Extract connection ID from first 4 bytes": lines 376-380. *)
Definition quic_connection_id (o : byte_order) (buffer : list cell)
    (bytes_received : Z) : Z :=
  if 4 <=? bytes_received then ntohl o (load_u32 o buffer) else 0.

(** The contents of [response] after the three [memcpy], lines 397-402.
    The operands of [std::min] are [size_t]. *)
Definition quic_response (o : byte_order) (buffer : list cell)
    (bytes_received connection_id : Z) : list cell :=
  let response := uninitialised BUFFER_SIZE in
  let response :=
    memcpy response 0 (uint32_bytes o connection_id) 0 sizeof_uint32_t in
  let response := memcpy response sizeof_uint32_t quic_marker 0 11 in
  memcpy response (sizeof_uint32_t + 11) buffer sizeof_uint32_t
    (Z.min (size_t (bytes_received - sizeof_uint32_t))
           (size_t (BUFFER_SIZE - sizeof_uint32_t - 11))).

(** [response_size], line 404: the sum is computed in [size_t] and
    converted to [ssize_t]. *)
Definition quic_response_size (bytes_received : Z) : Z :=
  ssize_t (size_t (sizeof_uint32_t + 11
                   + size_t (bytes_received - sizeof_uint32_t))).

(** The body of [if (bytes_received > 0)], lines 373-406: [buffer] holds
    the datagram, [bytes_received] is its length as returned by
    [recvfrom]. *)
Definition quic_process (o : byte_order) (srv : EpollServer)
    (buffer : list cell) (bytes_received : Z) (addr : sockaddr_in)
    (now : time_point) : EpollServer * list cell * quic_reply :=
  let buffer := store buffer bytes_received x00 in
  let connection_id := quic_connection_id o buffer bytes_received in
  let srv := quic_track srv connection_id addr now in
  (srv, buffer,
   {| response := quic_response o buffer bytes_received connection_id;
      response_size := quic_response_size bytes_received;
      reply_to := addr |}).

(** What [sendto(fd, a, n, ...)] puts on the wire: the first [n] bytes
    of the array [a].  [None] when the call would read past the end of
    the array or read a cell that was never written. *)
Definition wire_bytes (a : list cell) (n : Z) : option (list byte) :=
  if (0 <=? n) && (n <=? Z.of_nat (length a))
  then mapM id (take (Z.to_nat n) a)
  else None.

Definition sendto_bytes (r : quic_reply) : option (list byte) :=
  wire_bytes (response r) (response_size r).

(** One datagram waiting in the socket's receive queue, with the clock
    reading at the moment it is handled. *)
Record arrival := {
  arr_from : sockaddr_in;
  arr_data : list byte;
  arr_time : time_point
}.

(** What successive [recvfrom] calls find: a datagram, or a failure
    other than [EAGAIN].  The end of the list is the empty queue
    ([EAGAIN]). *)
Inductive recv_event :=
| Arrives (a : arrival)
| RecvFails.

(** One pass of the [while (true)] loop for a queued datagram: receive
    it into [buffer] (at most [BUFFER_SIZE - 1] bytes) and, when it is
    not empty, process it. *)
Definition quic_step (o : byte_order) (srv : EpollServer)
    (buffer : list cell) (a : arrival)
  : EpollServer * list cell * option quic_reply :=
  let '(bytes_received, buffer) :=
    recvfrom buffer (BUFFER_SIZE - 1) (arr_data a) in
  if 0 <? bytes_received then
    let '(srv, buffer, r) :=
      quic_process o srv buffer bytes_received (arr_from a) (arr_time a) in
    (srv, buffer, Some r)
  else (srv, buffer, None).

(** The drain loop, with [buffer] carried from one iteration to the
    next; it ends when the queue is empty or [recvfrom] fails. *)
Fixpoint quic_drain (o : byte_order) (srv : EpollServer)
    (buffer : list cell) (queue : list recv_event)
  : EpollServer * list quic_reply :=
  match queue with
  | [] => (srv, [])
  | RecvFails :: _ => (srv, [])
  | Arrives a :: queue =>
      let '(srv, buffer, r) := quic_step o srv buffer a in
      let '(srv, rs) := quic_drain o srv buffer queue in
      (srv, option_list r ++ rs)
  end.

(** [handle_quic_connection()]. *)
Definition handle_quic_connection (o : byte_order) (srv : EpollServer)
    (queue : list recv_event) : EpollServer * list quic_reply :=
  quic_drain o srv (uninitialised BUFFER_SIZE) queue.

(** ** Notions used in the statements about the pseudo-QUIC handler *)

(** The connection id a datagram carries: its first four bytes read as
    a big-endian number; 0 when it has fewer than four bytes. *)
Definition datagram_id (data : list byte) : Z :=
  match data with
  | b0 :: b1 :: b2 :: b3 :: _ => big_endian b0 b1 b2 b3
  | _ => 0
  end.

(** The id bytes as the host lays them out in [response]. *)
Definition host_id_bytes (o : byte_order) (data : list byte) : list byte :=
  match o with
  | LittleEndian => reverse (take 4 data)
  | BigEndian => take 4 data
  end.

Definition marker_bytes : list byte := String.list_byte_of_string "QUIC Echo: ".

(** [buffer] once a datagram has been received into it and terminated. *)
Definition received (buffer : list cell) (got : list byte) : list cell :=
  store ((Some <$> got) ++ drop (length got) buffer) (Z.of_nat (length got)) x00.

(** The number of payload bytes copied into [response]. *)
Definition copied (n : Z) : nat :=
  Z.to_nat (Z.min (size_t (n - sizeof_uint32_t))
                  (size_t (BUFFER_SIZE - sizeof_uint32_t - 11))).

(** The connection table is consistent: every record is stored under
    its own id, so no two records carry the same id, and the counter is
    the number of records (as an [int]). *)
Definition table_ok (srv : EpollServer) : Prop :=
  (∀ k c, quic_connections_map srv !! k = Some c → connection_id c = k)
  ∧ quic_connections srv = int32 (Z.of_nat (size (quic_connections_map srv))).

(** ** The plain-datagram handler *)

(** A datagram on the plain-datagram port, with the outcome of the
    [sendto] that echoes it ([false]: it returns -1). *)
Record udp_arrival := {
  udp_from : sockaddr_in;
  udp_data : list byte;
  udp_send_ok : bool
}.

Inductive udp_event :=
| UdpArrives (a : udp_arrival)
| UdpRecvFails.

(** A datagram that left the server. *)
Record datagram := { dg_to : sockaddr_in; dg_bytes : option (list byte) }.

(** One pass of the loop of [handle_udp_packet], lines 329-345: receive
    up to [sizeof(buffer)] bytes; echo [bytes_read] bytes of [buffer] to
    the sender when [bytes_read > 0]; count the packet when [sendto]
    succeeds. *)
Definition udp_step (srv : EpollServer) (buffer : list cell) (a : udp_arrival)
  : EpollServer * list cell * option datagram :=
  let '(bytes_read, buffer) := recvfrom buffer BUFFER_SIZE (udp_data a) in
  if 0 <? bytes_read then
    if udp_send_ok a then
      ({| udp_packets := int32 (udp_packets srv + 1);
          quic_connections := quic_connections srv;
          quic_connections_map := quic_connections_map srv |},
       buffer,
       Some {| dg_to := udp_from a; dg_bytes := wire_bytes buffer bytes_read |})
    else (srv, buffer, None)
  else (srv, buffer, None).

Fixpoint udp_drain (srv : EpollServer) (buffer : list cell)
    (queue : list udp_event) : EpollServer * list datagram :=
  match queue with
  | [] => (srv, [])
  | UdpRecvFails :: _ => (srv, [])
  | UdpArrives a :: queue =>
      let '(srv, buffer, d) := udp_step srv buffer a in
      let '(srv, ds) := udp_drain srv buffer queue in
      (srv, option_list d ++ ds)
  end.

(** [handle_udp_packet()]. *)
Definition handle_udp_packet (srv : EpollServer) (queue : list udp_event)
  : EpollServer * list datagram :=
  udp_drain srv (uninitialised BUFFER_SIZE) queue.

(** ** The stream handler *)

(** The result of one [write] on the non-blocking client socket:
    [Written k] accepts [k] bytes, or all that were offered when fewer
    were; the others are -1 with [EAGAIN]/[EWOULDBLOCK], with [EPIPE], or
    with another error. *)
Inductive write_result :=
| Written (k : positive)
| WriteWouldBlock
| WriteBrokenPipe
| WriteError.

(** How the pending input ends once the receive queue is empty: [read]
    fails with [EAGAIN], returns 0 (the peer closed), or fails with
    another error. *)
Inductive read_end := ReadWouldBlock | ReadEof | ReadError.

(** State of the client descriptor after the handler. *)
Inductive client_state := ClientOpen | ClientClosed.

(** How the inner [while (total_written < bytes_read)] loop ends. *)
Inductive echo_end :=
| EchoDone            (* every byte written *)
| EchoDropped         (* [EAGAIN]: [break], the rest of the chunk is left *)
| EchoClosed.         (* [EPIPE] or another error: [close_client], [return] *)

(** The inner loop, lines 293-309.  [pending] is the part of the chunk
    not yet written ([buffer + total_written], of length
    [bytes_read - total_written]); [calls] counts the [write] calls made
    on the connection so far and [wr] gives the result of each.  Every
    accepted [write] takes at least one byte, so [length pending]
    iterations are enough; [echo_chunk] starts the loop with that many. *)
Fixpoint echo_loop (fuel : nat) (wr : nat → write_result) (calls : nat)
    (pending : list byte) : echo_end * nat * list byte :=
  match pending, fuel with
  | [], _ => (EchoDone, calls, [])
  | _ :: _, O => (EchoDropped, calls, [])
  | _ :: _, S fuel =>
      match wr calls with
      | Written k =>
          let bytes_written := Nat.min (Pos.to_nat k) (length pending) in
          let '(e, calls, out) :=
            echo_loop fuel wr (S calls) (drop bytes_written pending) in
          (e, calls, take bytes_written pending ++ out)
      | WriteWouldBlock => (EchoDropped, S calls, [])
      | WriteBrokenPipe | WriteError => (EchoClosed, S calls, [])
      end
  end.

Definition echo_chunk (wr : nat → write_result) (calls : nat)
    (chunk : list byte) : echo_end * nat * list byte :=
  echo_loop (length chunk) wr calls chunk.

(** The outer loop, lines 288-319.  [rx] is the socket's receive queue;
    each [read] takes up to [sizeof(buffer)] bytes from it.  Every
    successful [read] takes at least one byte, so [length rx] iterations
    are enough; [handle_tcp_client] starts the loop with that many.
    The result is the client's state and the bytes written to it. *)
Fixpoint read_loop (fuel : nat) (wr : nat → write_result) (calls : nat)
    (rx : list byte) (e : read_end) : client_state * list byte :=
  match rx, fuel with
  | [], _ | _, O =>
      match e with
      | ReadWouldBlock => (ClientOpen, [])
      | ReadEof | ReadError => (ClientClosed, [])
      end
  | _ :: _, S fuel =>
      let chunk := take (Z.to_nat BUFFER_SIZE) rx in
      match echo_chunk wr calls chunk with
      | (EchoClosed, _, out) => (ClientClosed, out)
      | (_, calls, out) =>
          let '(st, out') :=
            read_loop fuel wr calls (drop (Z.to_nat BUFFER_SIZE) rx) e in
          (st, out ++ out')
      end
  end.

(** [handle_tcp_client(client_fd)]. *)
Definition handle_tcp_client (wr : nat → write_result) (rx : list byte)
    (e : read_end) : client_state * list byte :=
  read_loop (length rx) wr 0 rx e.

(** ** Notions used in the statements about the echo handlers *)

(** Every [write] on the connection is accepted, wholly or in part. *)
Definition writes_accepted (wr : nat → write_result) : Prop :=
  ∀ i, ∃ k, wr i = Written k.

(** A connection whose first [write] takes one byte and whose next
    would block. *)
Definition one_byte_then_block (i : nat) : write_result :=
  match i with
  | O => Written 1
  | S _ => WriteWouldBlock
  end.





(** ** Sample datagrams *)

(** The 6-byte datagram with id [0x00000007] and payload ["hi"]. *)
Definition datagram_7_hi : arrival :=
  {| arr_from := {| sin_addr := 2130706433; sin_port := 40000 |};
     arr_data := [x00; x00; x00; x07; x68; x69];
     arr_time := 0 |}.

(** A datagram of 1023 bytes, the most [recvfrom] is asked for. *)
Definition datagram_1023 : arrival :=
  {| arr_from := {| sin_addr := 2130706433; sin_port := 40000 |};
     arr_data := [x00; x00; x00; x07] ++ replicate 1019 x41;
     arr_time := 0 |}.

(** ** Accepting and closing stream connections *)

(** The members of [EpollServer] the stream side uses: the connection
    counter, and the client descriptors that are open and registered with
    the epoll instance. *)
Record Reactor := {
  tcp_connections : Z;
  clients : gset Z
}.

(** What one [accept] call finds: a connection, with the outcome of the
    [epoll_ctl(EPOLL_CTL_ADD)] that follows it; no descriptor left
    ([EMFILE]/[ENFILE]); another error.  The end of the list is the empty
    backlog ([EAGAIN]). *)
Inductive accept_result :=
| Accepted (client_fd : Z) (ctl_ok : bool)
| AcceptTooManyFiles
| AcceptError.

(** [handle_tcp_connection()], lines 244-282: the descriptors it closes
    again come with the new state. *)
Fixpoint handle_tcp_connection (r : Reactor) (backlog : list accept_result)
  : Reactor * list Z :=
  match backlog with
  | [] => (r, [])
  | AcceptTooManyFiles :: _ => (r, [])
  | AcceptError :: _ => (r, [])
  | Accepted client_fd ctl_ok :: backlog =>
      let r := {| tcp_connections := int32 (tcp_connections r + 1);
                  clients := clients r |} in
      if ctl_ok then
        handle_tcp_connection
          {| tcp_connections := tcp_connections r;
             clients := {[client_fd]} ∪ clients r |} backlog
      else
        let '(r, closed) := handle_tcp_connection r backlog in
        (r, client_fd :: closed)
  end.

(** [close_client(client_fd)]. *)
Definition close_client (r : Reactor) (client_fd : Z) : Reactor :=
  {| tcp_connections := int32 (tcp_connections r - 1);
     clients := clients r ∖ {[client_fd]} |}.

(** The connections an accept loop takes from a backlog: those before the
    first failure. *)
Fixpoint accepted (backlog : list accept_result) : list (Z * bool) :=
  match backlog with
  | Accepted client_fd ctl_ok :: backlog => (client_fd, ctl_ok) :: accepted backlog
  | _ => []
  end.

(** ** Readiness events on a client connection *)

Definition EPOLLERR : Z := 8.
Definition EPOLLHUP : Z := 16.
Definition EPOLLIN : Z := 1.
Definition EPOLLRDHUP : Z := 8192.

(** The last branch of [run()], lines 236-241, for an event on a
    descriptor that is none of the three sockets: with an error or hangup
    flag the client is closed unread; otherwise [handle_tcp_client] runs
    and the client is closed if it says so.  The bytes written to the
    client come with the new state. *)
Definition handle_client_event (r : Reactor) (events client_fd : Z)
    (wr : nat → write_result) (rx : list byte) (e : read_end)
  : Reactor * list byte :=
  if Z.land events (Z.lor EPOLLERR EPOLLHUP) =? 0 then
    match handle_tcp_client wr rx e with
    | (ClientClosed, out) => (close_client r client_fd, out)
    | (ClientOpen, out) => (r, out)
    end
  else (close_client r client_fd, []).

(** ** Startup and shutdown *)

(** The descriptor members of [EpollServer]; -1 is "none". *)
Record descriptors := {
  epoll_fd : Z;
  tcp_fd : Z;
  udp_fd : Z;
  quic_fd : Z
}.

(** The constructor. *)
Definition descriptors_new : descriptors :=
  {| epoll_fd := -1; tcp_fd := -1; udp_fd := -1; quic_fd := -1 |}.

(** The results of the system calls of one [setup_*_socket]: what
    [socket] returns (-1 on failure) and whether [bind], [listen] (stream
    socket only) and [epoll_ctl] succeed.  The results of [fcntl] and
    [setsockopt] are not looked at. *)
Record setup_calls := {
  socket_result : Z;
  bind_ok : bool;
  listen_ok : bool;
  epoll_ctl_ok : bool
}.

(** The results of the system calls of [initialize()]. *)
Record startup_calls := {
  epoll_create1_result : Z;
  tcp_calls : setup_calls;
  udp_calls : setup_calls;
  quic_calls : setup_calls
}.

(** [setup_tcp_socket()]: the value left in [tcp_fd] and the result. *)
Definition setup_tcp_socket (c : setup_calls) : Z * bool :=
  let tcp_fd := socket_result c in
  if tcp_fd =? -1 then (tcp_fd, false)
  else if negb (bind_ok c) then (tcp_fd, false)
  else if negb (listen_ok c) then (tcp_fd, false)
  else if negb (epoll_ctl_ok c) then (tcp_fd, false)
  else (tcp_fd, true).

(** [setup_udp_socket()]. *)
Definition setup_udp_socket (c : setup_calls) : Z * bool :=
  let udp_fd := socket_result c in
  if udp_fd =? -1 then (udp_fd, false)
  else if negb (bind_ok c) then (udp_fd, false)
  else if negb (epoll_ctl_ok c) then (udp_fd, false)
  else (udp_fd, true).

(** [setup_quic_socket()]. *)
Definition setup_quic_socket (c : setup_calls) : Z * bool :=
  let quic_fd := socket_result c in
  if quic_fd =? -1 then (quic_fd, false)
  else if negb (bind_ok c) then (quic_fd, false)
  else if negb (epoll_ctl_ok c) then (quic_fd, false)
  else (quic_fd, true).

(** [initialize()] on a new server: the descriptor members afterwards,
    the result, and the descriptors the system handed out on the way, in
    the order of the calls. *)
Definition initialize (c : startup_calls) : descriptors * bool * list Z :=
  let d := descriptors_new in
  let created := epoll_create1_result c in
  let d := {| epoll_fd := created; tcp_fd := tcp_fd d;
              udp_fd := udp_fd d; quic_fd := quic_fd d |} in
  if created =? -1 then (d, false, [])
  else
    let opened := [created] in
    let '(fd, ok) := setup_tcp_socket (tcp_calls c) in
    let d := {| epoll_fd := epoll_fd d; tcp_fd := fd;
                udp_fd := udp_fd d; quic_fd := quic_fd d |} in
    let opened := if fd =? -1 then opened else opened ++ [fd] in
    if negb ok then (d, false, opened)
    else
      let '(fd, ok) := setup_udp_socket (udp_calls c) in
      let d := {| epoll_fd := epoll_fd d; tcp_fd := tcp_fd d;
                  udp_fd := fd; quic_fd := quic_fd d |} in
      let opened := if fd =? -1 then opened else opened ++ [fd] in
      if negb ok then (d, false, opened)
      else
        let '(fd, ok) := setup_quic_socket (quic_calls c) in
        let d := {| epoll_fd := epoll_fd d; tcp_fd := tcp_fd d;
                    udp_fd := udp_fd d; quic_fd := fd |} in
        let opened := if fd =? -1 then opened else opened ++ [fd] in
        (d, ok, opened).

(** [cleanup()]: the descriptors it closes, in order.  The members are
    left as they are. *)
Definition cleanup (d : descriptors) : list Z :=
  (if tcp_fd d =? -1 then [] else [tcp_fd d])
    ++ (if udp_fd d =? -1 then [] else [udp_fd d])
    ++ (if quic_fd d =? -1 then [] else [quic_fd d])
    ++ (if epoll_fd d =? -1 then [] else [epoll_fd d]).

(** The result of a setup as a test of the results of its calls. *)
Definition setup_ok (listens : bool) (c : setup_calls) : bool :=
  negb (socket_result c =? -1) && bind_ok c
    && (if listens then listen_ok c else true) && epoll_ctl_ok c.

(** Every step of a setup succeeds. *)
Definition setup_succeeds (listens : bool) (c : setup_calls) : Prop :=
  socket_result c ≠ -1 ∧ bind_ok c = true
  ∧ (listens = true → listen_ok c = true) ∧ epoll_ctl_ok c = true.

(** ** A pass of the pseudo-QUIC loop with every array access checked *)






(** ** Notions used in the statements about the drain loops *)

(** The datagrams a drain loop receives from a queue: those before the
    first failure of [recvfrom]. *)
Fixpoint arrivals_handled (queue : list recv_event) : list arrival :=
  match queue with
  | Arrives a :: queue => a :: arrivals_handled queue
  | _ => []
  end.

Fixpoint udp_arrivals_handled (queue : list udp_event) : list udp_arrival :=
  match queue with
  | UdpArrives a :: queue => a :: udp_arrivals_handled queue
  | _ => []
  end.

Definition nonempty (data : list byte) : bool :=
  match data with
  | [] => false
  | _ :: _ => true
  end.

(** The server over its life: one run of [handle_quic_connection] per
    readiness event of the pseudo-QUIC socket. *)
Definition quic_lifetime (o : byte_order) (srv : EpollServer)
    (queues : list (list recv_event)) : EpollServer :=
  foldl (λ srv queue, (handle_quic_connection o srv queue).1) srv queues.

(** No record of the table is marked established. *)
Definition never_established (srv : EpollServer) : Prop :=
  ∀ k c, quic_connections_map srv !! k = Some c → established c = false.

(** A datagram of 1020 bytes. *)
Definition datagram_1020 : arrival :=
  {| arr_from := {| sin_addr := 2130706433; sin_port := 40000 |};
     arr_data := replicate 1020 x41;
     arr_time := 0 |}.

End Server.

(* ================================================================== *)
(** * tester.cpp                                                       *)
(* ================================================================== *)

Module Tester.
Import Machine SpecFloat.

(** ** Latency samples *)

(** A C++ [double], as the IEEE 754 value it denotes. *)
Definition double := spec_float.

(** [0.0] and [100.0]. *)
Definition d_zero : double := S754_zero false.
Definition d_hundred : double := S754_finite false 7036874417766400 (-46).

(** A latency is a count of microseconds divided by [1000.0]: it is a
    number, never a NaN. *)
Definition is_number (x : double) : bool :=
  match x with
  | S754_nan => false
  | _ => true
  end.

(** ** Percentiles *)

(** [std::sort] with the default comparison [operator<].  The standard
    fixes the result (an ascending rearrangement of the input) and not
    the algorithm; insertion sort stands for it. *)
Fixpoint sort_insert (x : double) (l : list double) : list double :=
  match l with
  | [] => [x]
  | y :: l' => if SFltb x y then x :: l else y :: sort_insert x l'
  end.

Definition std_sort (l : list double) : list double :=
  foldr sort_insert [] l.

(** The index computed by one pass of the loop, lines 357-359, for a
    vector of [size] elements; the arithmetic is in [size_t]. *)
Definition percentile_index (size p : Z) : Z :=
  let index := size_t (size * p) / 100 in
  let index := if 0 <? index then index - 1 else index in
  let index := if size <=? index then size_t (size - 1) else index in
  index.

(** [v[i]] on a vector; the index is in range where it is used (lemma
    [percentile_index_range] below). *)
Definition at_index (v : list double) (i : Z) : double :=
  nth (Z.to_nat i) v d_zero.

(** [calculate_all_percentiles(data)]. *)
Definition calculate_all_percentiles (data : list double) : list double :=
  match data with
  | [] => replicate 100 d_zero
  | _ :: _ =>
      let sorted_data := std_sort data in
      (λ p, at_index sorted_data
              (percentile_index (Z.of_nat (length sorted_data)) p))
        <$> seqZ 1 100
  end.

(** ** Notions used in the statements about percentiles *)

(** [x <= y] on doubles. *)
Definition le (x y : double) : Prop := SFleb x y = true.

(** Ascending order. *)
Definition ascending (l : list double) : Prop := StronglySorted le l.

(** The index in words: [floor(n * p / 100)], less one unless it is
    already 0, kept within [0, n - 1]. *)
Definition nearest_rank_index (n p : Z) : Z :=
  let index := n * p / 100 in
  let index := if index =? 0 then index else index - 1 in
  Z.max 0 (Z.min index (n - 1)).

(** P-p, the [p]-th entry of a vector of percentiles ([v[p - 1]]). *)
Definition P (percentiles : list double) (p : Z) : double :=
  at_index percentiles (p - 1).

(** ** The result of a trial *)

Record ScalabilityResult := {
  client_count : Z;
  timestamp : string;
  throughput_mbps : double;
  percentiles : list double;
  connections_per_second : double;
  peak_concurrent_connections : double;
  success_rate : double;
  total_requests : Z;
  successful_requests : Z
}.

(** What a trial leaves behind when all workers have been joined.  The
    three rates are floating-point quotients of the atomic counters by
    the measured duration; they are taken as measured. *)
Record measurement := {
  m_timestamp : string;
  m_latencies : list double;
  m_throughput_mbps : double;
  m_connections_per_second : double;
  m_peak_connections : double
}.

(** "Calculate result", lines 190-207.  [latencies.size()] is converted
    from [size_t] to [int] on assignment. *)
Definition calculate_result (client_count : Z) (m : measurement)
  : ScalabilityResult :=
  let total_requests := int32 (size_t (Z.of_nat (length (m_latencies m)))) in
  let successful_requests :=
    int32 (size_t (Z.of_nat (length (m_latencies m)))) in
  {| client_count := client_count;
     timestamp := m_timestamp m;
     throughput_mbps := m_throughput_mbps m;
     percentiles := calculate_all_percentiles (m_latencies m);
     connections_per_second := m_connections_per_second m;
     peak_concurrent_connections := m_peak_connections m;
     success_rate := if 0 <? total_requests then d_hundred else d_zero;
     total_requests := total_requests;
     successful_requests := successful_requests |}.

(** ** The result logger *)

(** The function-local statics of [log_result]. *)
Record log_statics := { tcp_done : bool; tcp_tests_completed : Z }.

Definition log_statics_init : log_statics :=
  {| tcp_done := false; tcp_tests_completed := 0 |}.

(** One line of the log file: the protocol label, then the fields of the
    result. *)
Record log_line := { line_protocol : string; line_result : ScalabilityResult }.

(** [log_result(result)], lines 378-415; [is_open] is
    [log_file.is_open()]. *)
Definition log_result (is_open : bool) (st : log_statics)
    (result : ScalabilityResult) : log_statics * option log_line :=
  if negb is_open then (st, None)
  else
    let '(protocol, st) :=
      if negb (tcp_done st) then
        let completed := int32 (tcp_tests_completed st + 1) in
        ("TCP"%string,
         {| tcp_done := if 9 <=? completed then true else tcp_done st;
            tcp_tests_completed := completed |})
      else ("UDP"%string, st) in
    (st, Some {| line_protocol := protocol; line_result := result |}).

(** A sequence of calls of the logger, in order. *)
Fixpoint log_results (is_open : bool) (st : log_statics)
    (results : list ScalabilityResult) : log_statics * list log_line :=
  match results with
  | [] => (st, [])
  | r :: results =>
      let '(st, l) := log_result is_open st r in
      let '(st, ls) := log_results is_open st results in
      (st, option_list l ++ ls)
  end.

(** ** The driver *)

Definition client_counts : list Z :=
  [10; 20; 50; 100; 200; 500; 1000; 2000; 5000].

(** [test_with_client_count(protocol, client_count)]; [measure] stands
    for running the trial against the server. *)
Definition test_with_client_count (measure : string → Z → measurement)
    (protocol : string) (client_count : Z) : ScalabilityResult :=
  calculate_result client_count (measure protocol client_count).

(** [run_tcp_scalability()] and [run_udp_scalability()]: the results
    handed to the logger, in order. *)
Definition run_scalability (measure : string → Z → measurement)
    (protocol : string) : list ScalabilityResult :=
  test_with_client_count measure protocol <$> client_counts.

(** [run_scalability_tests()]: the lines written after the header. *)
Definition run_scalability_tests (measure : string → Z → measurement)
    (is_open : bool) : list log_line :=
  (log_results is_open log_statics_init
     (run_scalability measure "TCP" ++ run_scalability measure "UDP")).2.

(** ** Client workers and the stop flag *)

Inductive protocol := Tcp | Udp.

(** Where a worker thread is in [tcp_client_worker] or
    [udp_client_worker]. *)
Inductive worker_pc :=
| Starting      (* before the loop: startup delay, socket, connect *)
| LoopTest      (* about to evaluate [!stop_test] *)
| Sending       (* in the body, about to call [send]/[sendto] *)
| Receiving     (* the send returned > 0; about to call [recv]/[recvfrom] *)
| Pausing       (* [sleep_for] at the end of the body *)
| Finished.     (* after the loop *)

(** What a step of a worker does, as seen from outside. *)
Inductive action :=
| Silent
| Entered       (* the loop test passed: a new iteration begins *)
| SendCalled    (* a request goes out *)
| Recorded.     (* the reply came back and its latency was recorded *)

#[global] Instance action_eq_dec : EqDecision action.
Proof. solve_decision. Defined.

(** One atomic step of [tcp_client_worker].  [stop_test] is the value of
    the flag when it is read; [ok] is the outcome of the system call made
    in this step, if any ([socket] and [connect], [send], [recv]). *)
Definition tcp_client_worker (stop_test ok : bool) (pc : worker_pc)
  : worker_pc * action :=
  match pc with
  | Starting => if ok then (LoopTest, Silent) else (Finished, Silent)
  | LoopTest => if stop_test then (Finished, Silent) else (Sending, Entered)
  | Sending =>
      if ok then (Receiving, SendCalled)
      else (Finished, SendCalled)                 (* [sent <= 0]: [break] *)
  | Receiving =>
      if ok then (Pausing, Recorded)
      else (Finished, Silent)                     (* [received <= 0]: [break] *)
  | Pausing => (LoopTest, Silent)
  | Finished => (Finished, Silent)
  end.

(** One atomic step of [udp_client_worker]; [ok] is the outcome of
    [socket], [sendto] or [recvfrom].  A failed send or a receive that
    times out does not leave the loop. *)
Definition udp_client_worker (stop_test ok : bool) (pc : worker_pc)
  : worker_pc * action :=
  match pc with
  | Starting => if ok then (LoopTest, Silent) else (Finished, Silent)
  | LoopTest => if stop_test then (Finished, Silent) else (Sending, Entered)
  | Sending =>
      if ok then (Receiving, SendCalled) else (Pausing, SendCalled)
  | Receiving =>
      if ok then (Pausing, Recorded) else (Pausing, Silent)
  | Pausing => (LoopTest, Silent)
  | Finished => (Finished, Silent)
  end.

Definition worker_step (proto : protocol) : bool → bool → worker_pc → worker_pc * action :=
  match proto with
  | Tcp => tcp_client_worker
  | Udp => udp_client_worker
  end.

(** A trial: the shared flag and the workers. *)
Record trial := { stop_test : bool; workers : list worker_pc }.

(** What the scheduler picks next: the driver's [stop_test = true], or
    a step of worker [w]. *)
Inductive choice :=
| RaiseStop
| Run (w : nat) (ok : bool).

(** What is observed: the flag being raised, or an action of a worker. *)
Inductive event :=
| Raised
| Did (w : nat) (a : action).

#[global] Instance event_eq_dec : EqDecision event.
Proof. solve_decision. Defined.

Definition trial_step (proto : protocol) (t : trial) (c : choice)
  : trial * list event :=
  match c with
  | RaiseStop => ({| stop_test := true; workers := workers t |}, [Raised])
  | Run w ok =>
      match workers t !! w with
      | None => (t, [])
      | Some pc =>
          let '(pc, a) := worker_step proto (stop_test t) ok pc in
          ({| stop_test := stop_test t; workers := <[w := pc]> (workers t) |},
           [Did w a])
      end
  end.

(** An interleaving of the threads of a trial. *)
Fixpoint trial_run (proto : protocol) (t : trial) (schedule : list choice)
  : trial * list event :=
  match schedule with
  | [] => (t, [])
  | c :: schedule =>
      let '(t, es) := trial_step proto t c in
      let '(t, es') := trial_run proto t schedule in
      (t, es ++ es')
  end.

(** The state after [reset_counters()], with [client_count] workers
    about to be started. *)
Definition trial_init (client_count : nat) : trial :=
  {| stop_test := false; workers := replicate client_count Starting |}.

(** How many times worker [w] did [a] in a trace. *)
Definition count_action (w : nat) (a : action) (es : list event) : nat :=
  length (filter (λ e, e = Did w a) es).

(** Requests a worker at [pc] may still send, and replies it may still
    record, once the flag is up. *)
Definition sends_left (pc : worker_pc) : nat :=
  match pc with
  | Sending => 1
  | _ => 0
  end.

Definition records_left (pc : worker_pc) : nat :=
  match pc with
  | Sending | Receiving => 1
  | _ => 0
  end.

Definition pc_of (t : trial) (w : nat) : worker_pc :=
  default Finished (workers t !! w).

(** 1 when an action is the action counted, else 0. *)
Definition tally (a a' : action) : nat :=
  match a, a' with
  | Silent, Silent | Entered, Entered
  | SendCalled, SendCalled | Recorded, Recorded => 1
  | _, _ => 0
  end.

(** What holds, for a worker at [pc], of the numbers of iterations it has
    begun, of requests it has sent and of replies it has recorded: every
    iteration begun has sent its request unless the worker is about to;
    a reply is recorded only for a request sent; and a stream worker has
    recorded a reply for every request but the one it is waiting for, or
    the one that made it leave the loop. *)
Definition accounted (proto : protocol) (pc : worker_pc)
    (entered sent recorded : nat) : Prop :=
  (sent + sends_left pc = entered)%nat
  ∧ (recorded + (if pc is Receiving then 1 else 0) <= sent)%nat
  ∧ (proto = Tcp →
     match pc with
     | Finished => (sent <= recorded + 1)%nat
     | Receiving => sent = (recorded + 1)%nat
     | _ => sent = recorded
     end).

(** The steps a worker at [pc] needs at most to leave its loop once the
    flag is up: the send, the receive, the pause and the loop test. *)
Definition steps_left (pc : worker_pc) : nat :=
  match pc with
  | Starting => 2
  | LoopTest => 1
  | Sending => 4
  | Receiving => 3
  | Pausing => 2
  | Finished => 0
  end.

(** The number of steps a schedule gives to worker [w]. *)
Definition turns (w : nat) (schedule : list choice) : nat :=
  length (List.filter (λ c, match c with
                            | Run w' _ => bool_decide (w' = w)
                            | RaiseStop => false
                            end) schedule).

(** ** The connection monitor and the ramp-up *)

(** [connection_monitor()], lines 219-227.  [samples] are the values of
    [active_connections] loaded by the passes of the loop, in order; the
    result is [peak_connections] when the loop ends. *)
Definition connection_monitor (peak_connections : Z) (samples : list Z) : Z :=
  foldl (λ peak_connections current,
           if peak_connections <? current then current else peak_connections)
        peak_connections samples.







(** ** Notions used in further statements about percentiles *)

(** A latency is a number other than the negative zero: a count of
    microseconds divided by [1000.0] is [+0.0] when the count is 0. *)
Definition is_latency (x : double) : bool :=
  match x with
  | S754_nan => false
  | S754_zero true => false
  | _ => true
  end.

(** How many of the samples are at most, or at least, [y]. *)
Definition count_le (y : double) (data : list double) : Z :=
  Z.of_nat (length (List.filter (λ x, SFleb x y) data)).

Definition count_ge (y : double) (data : list double) : Z :=
  Z.of_nat (length (List.filter (λ x, SFleb y x) data)).

(** The trials of a run, in order: every client count under "TCP", then
    every client count under "UDP". *)
Definition trials : list (string * Z) :=
  (pair "TCP"%string <$> client_counts) ++ (pair "UDP"%string <$> client_counts).

(** ** Sample measurements *)

(** Three samples: 2.5, 1.0 and 100.0 milliseconds. *)
Definition three_samples : list double :=
  [S754_finite false 5629499534213120 (-51);
   S754_finite false 4503599627370496 (-52);
   d_hundred].

(** A trial in which [latencies] are the samples recorded. *)
Definition sample_measurement (latencies : list double) : measurement :=
  {| m_timestamp := "2025-01-01 00:00:00.000";
     m_latencies := latencies;
     m_throughput_mbps := d_zero;
     m_connections_per_second := d_zero;
     m_peak_connections := d_zero |}.

End Tester.

(* ================================================================== *)
(** * Properties of the machine model                                  *)
(* ================================================================== *)

Section MachineFacts.
Import Machine.

Lemma byte_to_Z_range (b : byte) : 0 <= byte_to_Z b < 256.
Proof.
  unfold byte_to_Z. pose proof (Byte.to_N_bounded b). lia.
Qed.

Lemma byte_of_to_Z (b : byte) : byte_of_Z (byte_to_Z b) = b.
Proof.
  unfold byte_of_Z. pose proof (byte_to_Z_range b) as Hb.
  rewrite Z.mod_small by lia. unfold byte_to_Z.
  rewrite N2Z.id, Byte.of_to_N. reflexivity.
Qed.

Lemma big_endian_range b0 b1 b2 b3 : 0 <= big_endian b0 b1 b2 b3 < 2 ^ 32.
Proof.
  unfold big_endian.
  pose proof (byte_to_Z_range b0). pose proof (byte_to_Z_range b1).
  pose proof (byte_to_Z_range b2). pose proof (byte_to_Z_range b3). lia.
Qed.

Lemma land_255 (x : Z) : Z.land x 255 = x mod 256.
Proof. change 255 with (Z.ones 8). rewrite Z.land_ones by lia. reflexivity. Qed.

(** Digits of a number written in base 256. *)
Lemma base256_digits (v0 v1 v2 v3 : Z) :
  0 <= v0 < 256 → 0 <= v1 < 256 → 0 <= v2 < 256 → 0 <= v3 < 256 →
  let x := v0 + v1 * 2 ^ 8 + v2 * 2 ^ 16 + v3 * 2 ^ 24 in
  x mod 256 = v0 ∧ (x / 2 ^ 8) mod 256 = v1
  ∧ (x / 2 ^ 16) mod 256 = v2 ∧ (x / 2 ^ 24) mod 256 = v3.
Proof.
  intros H0 H1 H2 H3 x. subst x.
  repeat split; Z.div_mod_to_equations; lia.
Qed.

Lemma load_u32_cells (o : byte_order) (b0 b1 b2 b3 : byte) (rest : list cell) :
  ntohl o (load_u32 o (Some b0 :: Some b1 :: Some b2 :: Some b3 :: rest))
  = big_endian b0 b1 b2 b3.
Proof.
  unfold ntohl, load_u32, big_endian, bswap32.
  cbv [lookup list_lookup default cell_value from_option id].
  pose proof (byte_to_Z_range b0) as H0. pose proof (byte_to_Z_range b1) as H1.
  pose proof (byte_to_Z_range b2) as H2. pose proof (byte_to_Z_range b3) as H3.
  destruct o.
  - rewrite !land_255, !Z.shiftr_div_pow2, !Z.shiftl_mul_pow2 by lia.
    destruct (base256_digits _ _ _ _ H0 H1 H2 H3) as (E0 & E1 & E2 & E3).
    cbv zeta in E0, E1, E2, E3. rewrite E0, E1, E2, E3. lia.
  - rewrite !Z.shiftl_mul_pow2 by lia. lia.
Qed.

Lemma uint32_bytes_big_endian (o : byte_order) (b0 b1 b2 b3 : byte) :
  uint32_bytes o (big_endian b0 b1 b2 b3)
  = match o with
    | LittleEndian => [Some b3; Some b2; Some b1; Some b0]
    | BigEndian => [Some b0; Some b1; Some b2; Some b3]
    end.
Proof.
  pose proof (byte_to_Z_range b0) as H0. pose proof (byte_to_Z_range b1) as H1.
  pose proof (byte_to_Z_range b2) as H2. pose proof (byte_to_Z_range b3) as H3.
  destruct (base256_digits _ _ _ _ H3 H2 H1 H0) as (E0 & E1 & E2 & E3).
  cbv zeta in E0, E1, E2, E3.
  assert (Hd : ∀ k b, 0 <= k →
               (big_endian b0 b1 b2 b3 / 2 ^ (8 * k)) mod 256 = byte_to_Z b →
               byte_of_Z (Z.shiftr (big_endian b0 b1 b2 b3) (8 * k)) = b).
  { intros k b Hk0 Hk. unfold byte_of_Z at 1. rewrite Z.shiftr_div_pow2 by lia.
    rewrite Hk. unfold byte_to_Z. rewrite N2Z.id, Byte.of_to_N. reflexivity. }
  assert (Hx : big_endian b0 b1 b2 b3
               = byte_to_Z b3 + byte_to_Z b2 * 2 ^ 8 + byte_to_Z b1 * 2 ^ 16
                 + byte_to_Z b0 * 2 ^ 24) by (unfold big_endian; lia).
  rewrite <- Hx in E0, E1, E2, E3.
  unfold uint32_bytes.
  destruct o; repeat f_equal; apply Hd; try lia; try assumption.
  all: change (8 * 0) with 0; rewrite Z.pow_0_r, Z.div_1_r; assumption.
Qed.

End MachineFacts.

(* ================================================================== *)
(** * The pseudo-QUIC handler                                          *)
(* ================================================================== *)

Section QuicFacts.
Import Machine Server.

Lemma size_t_nonneg (z : Z) : 0 <= size_t z < 2 ^ 64.
Proof. unfold size_t. apply Z.mod_pos_bound. lia. Qed.

Lemma size_t_small (z : Z) : 0 <= z < 2 ^ 64 → size_t z = z.
Proof. intros. unfold size_t. apply Z.mod_small. lia. Qed.

(** The length handed to [sendto] is the datagram's length plus 11,
    whatever the length: the subtraction of [sizeof(uint32_t)] wraps
    for a short datagram and the addition wraps back. *)
Lemma quic_response_size_eq (n : Z) :
  0 <= n < 2 ^ 62 → quic_response_size n = n + 11.
Proof.
  intros Hn. unfold quic_response_size, sizeof_uint32_t, size_t.
  rewrite Z.add_mod_idemp_r by lia.
  replace (4 + 11 + (n - 4)) with (n + 11) by lia.
  rewrite (Z.mod_small (n + 11)) by lia.
  unfold ssize_t. rewrite Z.mod_small by lia. lia.
Qed.

Lemma copied_le (n : Z) : (copied n <= 1009)%nat.
Proof.
  unfold copied, sizeof_uint32_t, BUFFER_SIZE.
  change (size_t (1024 - 4 - 11)) with 1009.
  pose proof (size_t_nonneg (n - 4)). lia.
Qed.

Lemma copied_long (n : Z) : 4 <= n < 2 ^ 62 → copied n = Nat.min (Z.to_nat (n - 4)) 1009.
Proof.
  intros Hn. unfold copied, sizeof_uint32_t, BUFFER_SIZE.
  change (size_t (1024 - 4 - 11)) with 1009.
  rewrite size_t_small by lia. lia.
Qed.

Lemma copied_short (n : Z) : 0 <= n < 4 → copied n = 1009%nat.
Proof.
  intros Hn. unfold copied, sizeof_uint32_t, BUFFER_SIZE.
  change (size_t (1024 - 4 - 11)) with 1009.
  unfold size_t.
  assert ((n - 4) mod 2 ^ 64 = n - 4 + 2 ^ 64) as ->.
  { symmetry. apply Z.mod_unique_pos with (q := -1); lia. }
  lia.
Qed.

(** The array [response] after the three copies: the id as the host
    stores it, the marker, the copied part of [buffer + 4], and what is
    left of the array untouched. *)
Lemma quic_response_shape (o : byte_order) (buffer : list cell) (n id : Z) :
  quic_response o buffer n id
  = uint32_bytes o id ++ quic_marker
      ++ take (copied n) (drop 4 buffer)
      ++ replicate (1009 - copied n) None.
Proof.
  unfold quic_response, memcpy. fold (copied n).
  pose proof (copied_le n) as Hc.
  assert (Hc' : Z.to_nat (sizeof_uint32_t + 11
                + Z.min (size_t (n - sizeof_uint32_t))
                        (size_t (BUFFER_SIZE - sizeof_uint32_t - 11)))
                = (15 + copied n)%nat).
  { unfold copied, sizeof_uint32_t in *.
    pose proof (size_t_nonneg (n - 4)).
    pose proof (size_t_nonneg (BUFFER_SIZE - 4 - 11)). lia. }
  rewrite Hc'. clear Hc'.
  set (c := copied n) in *. clearbody c.
  assert (Hr : drop c (replicate 1009 (None : cell)) = replicate (1009 - c) None)
    by apply drop_replicate.
  rewrite <- Hr.
  destruct o; reflexivity.
Qed.

Lemma received_cons (buffer : list cell) (b : byte) (got : list byte) :
  received buffer (b :: got) = Some b :: received (drop 1 buffer) got.
Proof.
  unfold received, store. rewrite !Nat2Z.id. cbn [length fmap list_fmap app].
  cbn [insert list_insert]. rewrite drop_drop. reflexivity.
Qed.

Lemma quic_step_unfold (o : byte_order) (srv : EpollServer)
    (buffer : list cell) (a : arrival) :
  let got := take (Z.to_nat (BUFFER_SIZE - 1)) (arr_data a) in
  let n := Z.of_nat (length got) in
  let buffer' := received buffer got in
  let id := quic_connection_id o buffer' n in
  got ≠ [] →
  quic_step o srv buffer a
  = (quic_track srv id (arr_from a) (arr_time a), buffer',
     Some {| response := quic_response o buffer' n id;
             response_size := quic_response_size n;
             reply_to := arr_from a |}).
Proof.
  intros got n buffer' id Hgot.
  unfold quic_step, recvfrom. fold got. fold n.
  assert ((0 <? n) = true) as ->.
  { apply Z.ltb_lt. subst n. destruct got; [congruence | cbn; lia]. }
  reflexivity.
Qed.

(** The handler reads the id the datagram carries, on either host. *)
Lemma quic_connection_id_received (o : byte_order) (buffer : list cell)
    (got : list byte) :
  quic_connection_id o (received buffer got) (Z.of_nat (length got))
  = datagram_id got.
Proof.
  unfold quic_connection_id.
  destruct got as [|b0 [|b1 [|b2 [|b3 payload]]]]; try reflexivity.
  rewrite !received_cons.
  assert ((4 <=? Z.of_nat (length (b0 :: b1 :: b2 :: b3 :: payload))) = true) as ->.
  { apply Z.leb_le. cbn [length]. lia. }
  apply load_u32_cells.
Qed.

Lemma datagram_id_take (k : nat) (data : list byte) :
  (4 <= k)%nat → datagram_id (take k data) = datagram_id data.
Proof.
  intros Hk. do 4 (destruct k as [|k]; [lia|]).
  destruct data as [|b0 [|b1 [|b2 [|b3 payload]]]]; reflexivity.
Qed.

Lemma datagram_id_range (data : list byte) : 0 <= datagram_id data < 2 ^ 32.
Proof.
  destruct data as [|b0 [|b1 [|b2 [|b3 payload]]]]; cbn [datagram_id]; try lia.
  apply big_endian_range.
Qed.

Lemma uint32_bytes_length (o : byte_order) (x : Z) :
  length (uint32_bytes o x) = 4%nat.
Proof. destruct o; reflexivity. Qed.

Lemma uint32_bytes_datagram_id (o : byte_order) (b0 b1 b2 b3 : byte)
    (payload : list byte) :
  uint32_bytes o (datagram_id (b0 :: b1 :: b2 :: b3 :: payload))
  = Some <$> host_id_bytes o (b0 :: b1 :: b2 :: b3 :: payload).
Proof.
  cbn [datagram_id]. rewrite uint32_bytes_big_endian. destruct o; reflexivity.
Qed.

Lemma mapM_id_Some (l : list byte) : mapM id (Some <$> l) = Some l.
Proof. apply mapM_fmap_Some. reflexivity. Qed.

(** A datagram of 4 to 1013 bytes: what goes on the wire is the id in
    host layout, the marker, and the whole payload. *)
Lemma quic_wire_long (o : byte_order) (buffer : list cell)
    (b0 b1 b2 b3 : byte) (payload : list byte) :
  let got := b0 :: b1 :: b2 :: b3 :: payload in
  let n := Z.of_nat (length got) in
  (length payload <= 1009)%nat →
  wire_bytes (quic_response o (received buffer got) n (datagram_id got))
             (quic_response_size n)
  = Some (host_id_bytes o got ++ marker_bytes ++ payload).
Proof.
  intros got n Hlen.
  assert (Hn : n = Z.of_nat (length payload) + 4) by (subst n got; cbn [length]; lia).
  rewrite quic_response_size_eq by lia.
  rewrite quic_response_shape.
  assert (Hc : copied n = length payload) by (rewrite copied_long; lia).
  rewrite Hc.
  assert (Hp : take (length payload) (drop 4 (received buffer got))
               = Some <$> payload).
  { subst got. rewrite !received_cons. cbn [drop].
    unfold received, store. rewrite Nat2Z.id, drop_0.
    rewrite take_insert_ge by lia.
    apply take_app_length'. rewrite length_fmap. reflexivity. }
  rewrite Hp. subst got. rewrite uint32_bytes_datagram_id.
  set (hb := host_id_bytes o _).
  assert (Hhb : length hb = 4%nat) by (subst hb; destruct o; reflexivity).
  change quic_marker with (Some <$> marker_bytes).
  rewrite !app_assoc, <- !fmap_app.
  set (msg := (hb ++ marker_bytes) ++ payload).
  assert (Hmsg : length msg = Z.to_nat (n + 11)).
  { subst msg. rewrite !length_app, Hhb. cbn [length marker_bytes].
    change (length marker_bytes) with 11%nat. lia. }
  unfold wire_bytes.
  rewrite length_app, length_fmap, length_replicate.
  assert ((0 <=? n + 11) && (n + 11 <=? Z.of_nat (length msg + (1009 - length payload))) = true) as ->.
  { apply andb_true_iff; split; [apply Z.leb_le | apply Z.leb_le]; lia. }
  rewrite take_app_length' by (rewrite length_fmap; lia).
  rewrite mapM_id_Some. subst msg. rewrite <- app_assoc. reflexivity.
Qed.

(** A datagram of 1 to 3 bytes: the id is 0, and the [n + 11] bytes that
    go on the wire are the four zero bytes and the start of the marker;
    nothing of the datagram itself is among them. *)
Lemma quic_wire_short (o : byte_order) (buffer : list cell) (got : list byte) :
  let n := Z.of_nat (length got) in
  (1 <= length got <= 3)%nat →
  wire_bytes (quic_response o (received buffer got) n 0) (quic_response_size n)
  = Some (take (length got + 11) ([x00; x00; x00; x00] ++ marker_bytes)).
Proof.
  intros n Hlen.
  rewrite quic_response_size_eq by lia.
  rewrite quic_response_shape.
  assert (Hid : uint32_bytes o 0 = Some <$> [x00; x00; x00; x00])
    by (destruct o; reflexivity).
  rewrite Hid. change quic_marker with (Some <$> marker_bytes).
  rewrite app_assoc, <- fmap_app.
  set (head := [x00; x00; x00; x00] ++ marker_bytes).
  match goal with |- context [(Some <$> head) ++ ?t] => set (tail := t) end.
  assert (Hh : length head = 15%nat) by reflexivity.
  unfold wire_bytes. rewrite length_app, length_fmap, Hh.
  assert (((0 <=? n + 11) && (n + 11 <=? Z.of_nat (15 + length tail))) = true) as ->.
  { apply andb_true_iff; split; apply Z.leb_le; lia. }
  rewrite take_app_le by (rewrite length_fmap; lia).
  rewrite <- fmap_take, mapM_id_Some.
  do 2 f_equal. lia.
Qed.

(** A datagram of 1014 bytes or more (at most 1023 are received): the
    length handed to [sendto] is larger than the array. *)
Lemma quic_overrun (o : byte_order) (buffer : list cell) (got : list byte) (id : Z) :
  let n := Z.of_nat (length got) in
  (1014 <= length got <= 1023)%nat →
  BUFFER_SIZE < quic_response_size n
  ∧ wire_bytes (quic_response o (received buffer got) n id)
               (quic_response_size n) = None.
Proof.
  intros n Hlen.
  rewrite quic_response_size_eq by lia.
  split; [unfold BUFFER_SIZE; lia|].
  rewrite quic_response_shape. unfold wire_bytes.
  rewrite !length_app, uint32_bytes_length, length_take, length_replicate.
  pose proof (copied_le n).
  assert ((n + 11 <=? Z.of_nat (4 + (length quic_marker
            + (copied n `min` length (drop 4 (received buffer got))
               + (1009 - copied n))))) = false) as ->.
  { apply Z.leb_gt. change (length quic_marker) with 11%nat. lia. }
  rewrite andb_false_r. reflexivity.
Qed.

End QuicFacts.

(* ================================================================== *)
(** * The connection table                                             *)
(* ================================================================== *)

Section TableFacts.
Import Machine Server.

Lemma int32_succ (x : Z) : int32 (int32 x + 1) = int32 (x + 1).
Proof.
  unfold int32.
  replace ((x + 2 ^ 31) mod 2 ^ 32 - 2 ^ 31 + 1 + 2 ^ 31)
    with ((x + 2 ^ 31) mod 2 ^ 32 + 1) by lia.
  rewrite Z.add_mod_idemp_l by lia.
  replace (x + 2 ^ 31 + 1) with (x + 1 + 2 ^ 31) by lia. reflexivity.
Qed.

(** First sight of an id: a record is created and the counter moves. *)
Lemma quic_track_new (srv : EpollServer) (id : Z) (addr : sockaddr_in)
    (now : time_point) :
  quic_connections_map srv !! id = None →
  quic_track srv id addr now
  = {| udp_packets := udp_packets srv;
       quic_connections := int32 (quic_connections srv + 1);
       quic_connections_map :=
         <[id := QuicConnection_new id addr now]> (quic_connections_map srv) |}.
Proof. intros H. unfold quic_track. rewrite H. reflexivity. Qed.

(** A known id: its record is refreshed and nothing else changes. *)
Lemma quic_track_seen (srv : EpollServer) (id : Z) (addr : sockaddr_in)
    (now : time_point) (c : QuicConnection) :
  quic_connections_map srv !! id = Some c →
  quic_track srv id addr now
  = {| udp_packets := udp_packets srv;
       quic_connections := quic_connections srv;
       quic_connections_map :=
         <[id := QuicConnection_touch c now]> (quic_connections_map srv) |}.
Proof. intros H. unfold quic_track. rewrite H. reflexivity. Qed.

Lemma quic_track_other (srv : EpollServer) (id : Z) (addr : sockaddr_in)
    (now : time_point) (k : Z) :
  k ≠ id →
  quic_connections_map (quic_track srv id addr now) !! k
  = quic_connections_map srv !! k.
Proof.
  intros Hk. unfold quic_track.
  destruct (quic_connections_map srv !! id); cbn; by rewrite lookup_insert_ne.
Qed.

Lemma quic_track_keeps (srv : EpollServer) (id : Z) (addr : sockaddr_in)
    (now : time_point) (k : Z) :
  is_Some (quic_connections_map srv !! k) →
  is_Some (quic_connections_map (quic_track srv id addr now) !! k).
Proof.
  intros Hk. destruct (decide (k = id)) as [->|Hne].
  - unfold quic_track. destruct (quic_connections_map srv !! id); cbn;
      rewrite lookup_insert_eq; eauto.
  - by rewrite quic_track_other.
Qed.

Lemma quic_track_ok (srv : EpollServer) (id : Z) (addr : sockaddr_in)
    (now : time_point) :
  table_ok srv → table_ok (quic_track srv id addr now).
Proof.
  intros [Hid Hcount].
  destruct (quic_connections_map srv !! id) as [c|] eqn:Hlook.
  - rewrite (quic_track_seen _ _ _ _ _ Hlook). split; cbn.
    + intros k c'. destruct (decide (k = id)) as [->|Hne].
      * rewrite lookup_insert_eq. intros [= <-]. cbn. by apply Hid.
      * rewrite lookup_insert_ne by done. apply Hid.
    + rewrite map_size_insert_Some by eauto. exact Hcount.
  - rewrite (quic_track_new _ _ _ _ Hlook). split; cbn.
    + intros k c'. destruct (decide (k = id)) as [->|Hne].
      * rewrite lookup_insert_eq. by intros [= <-].
      * rewrite lookup_insert_ne by done. apply Hid.
    + rewrite map_size_insert_None by done. rewrite Hcount, int32_succ.
      f_equal. lia.
Qed.

Lemma table_ok_new : table_ok EpollServer_new.
Proof.
  split; [|reflexivity]. intros k c. cbn. rewrite lookup_empty. discriminate.
Qed.

(** What one pass of the loop does to the server, by cases on the
    datagram. *)
Lemma quic_step_server (o : byte_order) (srv : EpollServer)
    (buffer : list cell) (a : arrival) :
  (quic_step o srv buffer a).1.1
  = match arr_data a with
    | [] => srv
    | _ :: _ => quic_track srv (datagram_id (arr_data a)) (arr_from a) (arr_time a)
    end.
Proof.
  destruct (arr_data a) as [|b data] eqn:Hdata.
  - unfold quic_step, recvfrom. rewrite Hdata. reflexivity.
  - rewrite quic_step_unfold.
    + cbn [fst]. rewrite quic_connection_id_received.
      rewrite datagram_id_take, Hdata; [reflexivity | unfold BUFFER_SIZE; lia].
    + rewrite Hdata. discriminate.
Qed.

Lemma quic_step_keeps (o : byte_order) (srv : EpollServer)
    (buffer : list cell) (a : arrival) :
  (∀ k, is_Some (quic_connections_map srv !! k) →
        is_Some (quic_connections_map (quic_step o srv buffer a).1.1 !! k))
  ∧ (table_ok srv → table_ok (quic_step o srv buffer a).1.1).
Proof.
  rewrite quic_step_server. destruct (arr_data a); [done|].
  split; [intros k; apply quic_track_keeps | apply quic_track_ok].
Qed.

(** C5. Across a datagram-handling step of the pseudo-QUIC handler the
    connection table keeps each 32-bit id under at most one record: an empty
    datagram changes nothing; otherwise, if the datagram's id was never
    seen, a record is created for it (the id, the sender's address, the
    current time as last activity, not established) and the counter is
    incremented; if it was seen, its record is only updated: the last
    activity becomes the current time, the other fields and the counter
    stay as they were.  Every other record is untouched, no record is
    ever removed, and the table stays consistent (each record stored
    under its own id, counter equal to the number of records). *)
Theorem quic_table_invariant (o : byte_order) (srv : EpollServer)
    (buffer : list cell) (a : arrival) :
  let srv' := (quic_step o srv buffer a).1.1 in
  let id := datagram_id (arr_data a) in
  let table := quic_connections_map srv in
  let table' := quic_connections_map srv' in
  0 <= id < 2 ^ 32
  ∧ (arr_data a = [] → srv' = srv)
  ∧ (arr_data a ≠ [] →
      (table !! id = None →
         table'
         = <[id := {| connection_id := id;
                      client_addr := arr_from a;
                      last_activity := arr_time a;
                      established := false |}]> table
         ∧ quic_connections srv' = int32 (quic_connections srv + 1))
      ∧ (∀ c, table !! id = Some c →
         table'
         = <[id := {| connection_id := connection_id c;
                      client_addr := client_addr c;
                      last_activity := arr_time a;
                      established := established c |}]> table
         ∧ quic_connections srv' = quic_connections srv))
  ∧ (∀ k, k ≠ id → table' !! k = table !! k)
  ∧ (∀ k, is_Some (table !! k) → is_Some (table' !! k))
  ∧ (table_ok srv → table_ok srv').
Proof.
  intros srv' id table table'. subst srv' table'.
  split; [apply datagram_id_range|].
  rewrite quic_step_server. fold id.
  destruct (arr_data a) as [|b data] eqn:Hdata.
  - split; [done|]. split; [done|]. split; [done|]. split; done.
  - split; [done|]. split; [intros _; split|split; [|split]].
    + intros Hnone. rewrite (quic_track_new _ _ _ _ Hnone). done.
    + intros c Hc. rewrite (quic_track_seen _ _ _ _ _ Hc). done.
    + intros k Hk. by apply quic_track_other.
    + intros k. apply quic_track_keeps.
    + apply quic_track_ok.
Qed.

(** The statement above at two datagrams with id 7: the first reaches a
    fresh server, where the record is created and the counter becomes 1;
    the second, from another address at time 9, reaches a server that
    holds the record: the last activity becomes 9, the address and the
    counter stay. *)
Lemma quic_table_invariant_witness :
  (let srv' :=
     (quic_step LittleEndian EpollServer_new (uninitialised BUFFER_SIZE)
        datagram_7_hi).1.1 in
   quic_connections srv' = 1
   ∧ quic_connections_map srv'
     = {[ 7 := {| connection_id := 7;
                  client_addr := {| sin_addr := 2130706433; sin_port := 40000 |};
                  last_activity := 0;
                  established := false |} ]}
   ∧ table_ok srv')
  ∧ (let srv' :=
       (quic_step LittleEndian
          {| udp_packets := 0;
             quic_connections := 1;
             quic_connections_map :=
               {[ 7 := {| connection_id := 7;
                          client_addr :=
                            {| sin_addr := 2130706433; sin_port := 40000 |};
                          last_activity := 0;
                          established := false |} ]} |}
          (uninitialised BUFFER_SIZE)
          {| arr_from := {| sin_addr := 2130706433; sin_port := 40001 |};
             arr_data := [x00; x00; x00; x07; x68; x69];
             arr_time := 9 |}).1.1 in
     quic_connections srv' = 1
     ∧ quic_connections_map srv' !! 7
       = Some {| connection_id := 7;
                 client_addr := {| sin_addr := 2130706433; sin_port := 40000 |};
                 last_activity := 9;
                 established := false |}).
Proof.
  split.
  - destruct (quic_table_invariant LittleEndian EpollServer_new
                (uninitialised BUFFER_SIZE) datagram_7_hi)
      as (_ & _ & Hstep & _ & _ & Hok).
    destruct Hstep as [Hnew _]; [discriminate|].
    destruct Hnew as [Hmap Hcount]; [apply lookup_empty|].
    split; [exact Hcount|]. split; [exact Hmap|]. apply Hok, table_ok_new.
  - destruct (quic_table_invariant LittleEndian
                {| udp_packets := 0;
                   quic_connections := 1;
                   quic_connections_map :=
                     {[ 7 := {| connection_id := 7;
                                client_addr :=
                                  {| sin_addr := 2130706433; sin_port := 40000 |};
                                last_activity := 0;
                                established := false |} ]} |}
                (uninitialised BUFFER_SIZE)
                {| arr_from := {| sin_addr := 2130706433; sin_port := 40001 |};
                   arr_data := [x00; x00; x00; x07; x68; x69];
                   arr_time := 9 |})
      as (_ & _ & Hstep & _).
    destruct Hstep as [_ Hseen]; [discriminate|].
    destruct (Hseen {| connection_id := 7;
                       client_addr := {| sin_addr := 2130706433; sin_port := 40000 |};
                       last_activity := 0;
                       established := false |}) as [Hmap Hcount].
    { apply lookup_singleton_eq. }
    cbn zeta. split; [exact Hcount|].
    rewrite Hmap. apply lookup_insert_eq.
Defined.

(** The plain-datagram handler leaves the table alone. *)
Lemma udp_step_table (srv : EpollServer) (buffer : list cell) (a : udp_arrival) :
  quic_connections_map (udp_step srv buffer a).1.1 = quic_connections_map srv
  ∧ quic_connections (udp_step srv buffer a).1.1 = quic_connections srv.
Proof.
  unfold udp_step. destruct (recvfrom buffer BUFFER_SIZE (udp_data a)) as [n b].
  destruct (0 <? n), (udp_send_ok a); done.
Qed.

(** The same over a whole run of the handler: the table stays
    consistent and keeps every record it had. *)
Lemma quic_drain_table (o : byte_order) (queue : list recv_event)
    (srv : EpollServer) (buffer : list cell) :
  let srv' := (quic_drain o srv buffer queue).1 in
  (table_ok srv → table_ok srv')
  ∧ (∀ k, is_Some (quic_connections_map srv !! k) →
          is_Some (quic_connections_map srv' !! k)).
Proof.
  revert srv buffer. induction queue as [|[a|] queue IH]; intros srv buffer;
    cbn [quic_drain fst].
  - done.
  - pose proof (quic_step_keeps o srv buffer a) as [Hkeep Hok].
    destruct (quic_step o srv buffer a) as [[srv1 buffer1] r] eqn:Hstep.
    cbn [fst] in Hkeep, Hok.
    specialize (IH srv1 buffer1). cbn zeta in IH. destruct IH as [IHok IHkeep].
    destruct (quic_drain o srv1 buffer1 queue) as [srv2 rs]. cbn [fst] in *.
    split; [tauto|]. intros k Hk. apply IHkeep, Hkeep, Hk.
  - done.
Qed.

End TableFacts.

(* ================================================================== *)
(** * What the pseudo-QUIC handler answers                             *)
(* ================================================================== *)

Section QuicReplies.
Import Machine Server.

(** A datagram of 4 to 1013 bytes is answered with the id as the host
    lays it out, the marker and the payload.  On a big-endian host the
    id bytes are those of the request; on a little-endian host they are
    reversed, because the id converted by [ntohl] is copied back
    without [htonl]. *)
Lemma quic_reply_long (o : byte_order) (srv : EpollServer)
    (buffer : list cell) (a : arrival) :
  (4 <= length (arr_data a) <= 1013)%nat →
  ∃ buffer' r,
    quic_step o srv buffer a
    = (quic_track srv (datagram_id (arr_data a)) (arr_from a) (arr_time a),
       buffer', Some r)
    ∧ reply_to r = arr_from a
    ∧ response_size r = Z.of_nat (length (arr_data a)) + 11
    ∧ sendto_bytes r
      = Some (host_id_bytes o (arr_data a) ++ marker_bytes ++ drop 4 (arr_data a)).
Proof.
  intros Hlen.
  pose proof (quic_step_unfold o srv buffer a) as Hstep. cbn zeta in Hstep.
  rewrite take_ge in Hstep by (unfold BUFFER_SIZE; lia).
  rewrite quic_connection_id_received in Hstep.
  destruct (arr_data a) as [|b0 [|b1 [|b2 [|b3 payload]]]] eqn:Hdata;
    cbn [length] in Hlen; try lia.
  rewrite Hstep by discriminate.
  eexists _, _. split; [reflexivity|]. cbn [reply_to response_size].
  split; [reflexivity|]. split.
  - rewrite quic_response_size_eq; [reflexivity | cbn [length]; lia].
  - unfold sendto_bytes. cbn [response response_size].
    rewrite quic_wire_long by lia. reflexivity.
Qed.

(** C8. A datagram of 1 to 3 bytes on the pseudo-QUIC port is not
    dropped: the handler takes its connection id to be 0; if the table has
    no record for id 0 it creates one (id 0, the sender's address, the
    current time, not established) and increments the counter; if it has
    one it refreshes it: the last activity becomes the current time, the
    other fields and the counter stay; the plain-datagram counter is not
    touched; and it sends the sender a response of exactly n + 11 bytes
    that begins with four zero bytes. *)
Theorem quic_short_datagram_answered (o : byte_order) (srv : EpollServer)
    (buffer : list cell) (a : arrival) :
  (1 <= length (arr_data a) <= 3)%nat →
  ∃ srv' buffer' r bytes,
    quic_step o srv buffer a = (srv', buffer', Some r)
    ∧ reply_to r = arr_from a
    ∧ response_size r = Z.of_nat (length (arr_data a)) + 11
    ∧ sendto_bytes r = Some bytes
    ∧ length bytes = (length (arr_data a) + 11)%nat
    ∧ take 4 bytes = [x00; x00; x00; x00]
    ∧ udp_packets srv' = udp_packets srv
    ∧ (quic_connections_map srv !! 0 = None →
         quic_connections_map srv'
         = <[0 := {| connection_id := 0;
                     client_addr := arr_from a;
                     last_activity := arr_time a;
                     established := false |}]> (quic_connections_map srv)
         ∧ quic_connections srv' = int32 (quic_connections srv + 1))
    ∧ (∀ c, quic_connections_map srv !! 0 = Some c →
         quic_connections_map srv'
         = <[0 := {| connection_id := connection_id c;
                     client_addr := client_addr c;
                     last_activity := arr_time a;
                     established := established c |}]> (quic_connections_map srv)
         ∧ quic_connections srv' = quic_connections srv).
Proof.
  intros Hlen.
  pose proof (quic_step_unfold o srv buffer a) as Hstep. cbn zeta in Hstep.
  rewrite take_ge in Hstep by (unfold BUFFER_SIZE; lia).
  rewrite quic_connection_id_received in Hstep.
  assert (Hid : datagram_id (arr_data a) = 0).
  { destruct (arr_data a) as [|b0 [|b1 [|b2 [|b3 payload]]]];
      cbn [length] in Hlen; try lia; reflexivity. }
  rewrite Hid in Hstep.
  rewrite Hstep by (destruct (arr_data a); [cbn in Hlen; lia | discriminate]).
  eexists _, _, _, _. split; [reflexivity|]. cbn [reply_to response_size].
  split; [reflexivity|]. split.
  { rewrite quic_response_size_eq; [reflexivity | lia]. }
  split.
  { unfold sendto_bytes. cbn [response response_size].
    apply quic_wire_short. exact Hlen. }
  split.
  { rewrite length_take. change (length (_ ++ marker_bytes)) with 15%nat. lia. }
  split.
  { rewrite take_take. replace (4 `min` (length (arr_data a) + 11))%nat with 4%nat by lia.
    reflexivity. }
  split; [unfold quic_track; by destruct (quic_connections_map srv !! 0)|]. split.
  - intros Hnone. by rewrite (quic_track_new _ _ _ _ Hnone).
  - intros c Hc. by rewrite (quic_track_seen _ _ _ _ _ Hc).
Qed.

(** The statement above at a one-byte datagram, at time 7: on a fresh
    server the record of id 0 is created; on a server that holds a record
    for id 0, from another address at time 0, that record only has its
    last activity set to 7. *)
Lemma quic_short_datagram_answered_witness :
  (∃ srv' buffer' r bytes,
     quic_step LittleEndian EpollServer_new (uninitialised BUFFER_SIZE)
       {| arr_from := {| sin_addr := 2130706433; sin_port := 40000 |};
          arr_data := [x41]; arr_time := 7 |}
     = (srv', buffer', Some r)
     ∧ response_size r = 12
     ∧ sendto_bytes r = Some bytes
     ∧ length bytes = 12%nat
     ∧ quic_connections srv' = 1)
  ∧ (∃ srv' buffer' r,
       quic_step LittleEndian
         {| udp_packets := 0;
            quic_connections := 1;
            quic_connections_map :=
              {[ 0 := {| connection_id := 0;
                         client_addr :=
                           {| sin_addr := 2130706433; sin_port := 40001 |};
                         last_activity := 0;
                         established := false |} ]} |}
         (uninitialised BUFFER_SIZE)
         {| arr_from := {| sin_addr := 2130706433; sin_port := 40000 |};
            arr_data := [x41]; arr_time := 7 |}
       = (srv', buffer', Some r)
       ∧ quic_connections srv' = 1
       ∧ quic_connections_map srv' !! 0
         = Some {| connection_id := 0;
                   client_addr := {| sin_addr := 2130706433; sin_port := 40001 |};
                   last_activity := 7;
                   established := false |}).
Proof.
  split.
  - destruct (quic_short_datagram_answered LittleEndian EpollServer_new
                (uninitialised BUFFER_SIZE)
                {| arr_from := {| sin_addr := 2130706433; sin_port := 40000 |};
                   arr_data := [x41]; arr_time := 7 |})
      as (srv' & buffer' & r & bytes & H1 & _ & H3 & H4 & H5 & _ & _ & Hnew & _).
    + cbn. lia.
    + destruct Hnew as [_ Hcount]; [apply lookup_empty|].
      exists srv', buffer', r, bytes. repeat split; assumption.
  - destruct (quic_short_datagram_answered LittleEndian
                {| udp_packets := 0;
                   quic_connections := 1;
                   quic_connections_map :=
                     {[ 0 := {| connection_id := 0;
                                client_addr :=
                                  {| sin_addr := 2130706433; sin_port := 40001 |};
                                last_activity := 0;
                                established := false |} ]} |}
                (uninitialised BUFFER_SIZE)
                {| arr_from := {| sin_addr := 2130706433; sin_port := 40000 |};
                   arr_data := [x41]; arr_time := 7 |})
      as (srv' & buffer' & r & bytes & H1 & _ & _ & _ & _ & _ & _ & _ & Hseen).
    + cbn. lia.
    + destruct (Hseen {| connection_id := 0;
                         client_addr := {| sin_addr := 2130706433; sin_port := 40001 |};
                         last_activity := 0;
                         established := false |}) as [Hmap Hcount].
      { apply lookup_singleton_eq. }
      exists srv', buffer', r. split; [exact H1|]. split; [exact Hcount|].
      rewrite Hmap. apply lookup_insert_eq.
Defined.

(** On a big-endian host the response to a datagram of 4 to 1013 bytes
    is the request's id, the marker and the request's payload. *)
Lemma quic_reply_big_endian (srv : EpollServer) (buffer : list cell) (a : arrival) :
  (4 <= length (arr_data a) <= 1013)%nat →
  ∃ srv' buffer' r,
    quic_step BigEndian srv buffer a = (srv', buffer', Some r)
    ∧ sendto_bytes r
      = Some (take 4 (arr_data a) ++ marker_bytes ++ drop 4 (arr_data a)).
Proof.
  intros Hlen.
  destruct (quic_reply_long BigEndian srv buffer a Hlen)
    as (buffer' & r & Hstep & _ & _ & Hwire).
  eauto.
Qed.

(** C1. On a little-endian host the response to the datagram with id
    [00 00 00 07] and payload ["hi"] is [07 00 00 00], the marker and
    ["hi"]: the id bytes come back reversed, so the response is not the
    first four bytes of the request followed by the marker and the
    payload. *)
Theorem quic_echo_reverses_id_on_little_endian :
  (sendto_bytes <$>
     (handle_quic_connection LittleEndian EpollServer_new
        [Arrives datagram_7_hi]).2)
  = [Some ([x07; x00; x00; x00] ++ marker_bytes ++ [x68; x69])]
  ∧ (sendto_bytes <$>
       (handle_quic_connection LittleEndian EpollServer_new
          [Arrives datagram_7_hi]).2)
    ≠ [Some (take 4 (arr_data datagram_7_hi) ++ marker_bytes
             ++ drop 4 (arr_data datagram_7_hi))].
Proof. split; [vm_compute; reflexivity | vm_compute; discriminate]. Qed.

(** C2. For a datagram of 1023 bytes the handler hands [sendto] a
    length of 1034 for an array of 1024 bytes: the copy into the array is
    cut to its capacity, the length sent is not. *)
Theorem quic_response_size_exceeds_buffer :
  ((λ r, (length (response r), response_size r, sendto_bytes r)) <$>
     (handle_quic_connection LittleEndian EpollServer_new
        [Arrives datagram_1023]).2)
  = [(1024%nat, 1034, None)]
  ∧ BUFFER_SIZE < 1034.
Proof. split; [vm_compute; reflexivity | reflexivity]. Qed.

(** The same for every datagram of 1014 bytes or more, on either host. *)
Lemma quic_reply_overrun (o : byte_order) (srv : EpollServer)
    (buffer : list cell) (a : arrival) :
  (1014 <= length (arr_data a))%nat →
  ∃ srv' buffer' r,
    quic_step o srv buffer a = (srv', buffer', Some r)
    ∧ response_size r
      = Z.of_nat (length (arr_data a) `min` 1023) + 11
    ∧ BUFFER_SIZE < response_size r
    ∧ sendto_bytes r = None.
Proof.
  intros Hlen.
  pose proof (quic_step_unfold o srv buffer a) as Hstep. cbn zeta in Hstep.
  set (got := take (Z.to_nat (BUFFER_SIZE - 1)) (arr_data a)) in *.
  assert (Hgot : length got = (length (arr_data a) `min` 1023)%nat).
  { subst got. rewrite length_take. unfold BUFFER_SIZE. lia. }
  rewrite Hstep by (intros E; rewrite E in Hgot; cbn in Hgot; lia).
  eexists _, _, _. split; [reflexivity|]. cbn [response_size].
  destruct (quic_overrun o buffer got
              (quic_connection_id o (received buffer got) (Z.of_nat (length got))))
    as [Hbig Hnone]; [lia|].
  split; [|split]; [|exact Hbig|exact Hnone].
  rewrite quic_response_size_eq by lia. rewrite Hgot. reflexivity.
Qed.

End QuicReplies.

(* ================================================================== *)
(** * The stream and plain-datagram echo                               *)
(* ================================================================== *)

Section EchoFacts.
Import Machine Server.

(** The loops never run out of iterations: any number of them that is at
    least the number of bytes pending gives the same result. *)
Lemma echo_loop_fuel (wr : nat → write_result) (fuel : nat) :
  ∀ fuel' calls pending,
    (length pending <= fuel)%nat → (length pending <= fuel')%nat →
    echo_loop fuel wr calls pending = echo_loop fuel' wr calls pending.
Proof.
  induction fuel as [|fuel IH]; intros fuel' calls pending Hlen Hlen'.
  - destruct pending; [by destruct fuel' | cbn in Hlen; lia].
  - destruct pending as [|b pending]; [by destruct fuel'|].
    destruct fuel' as [|fuel']; [cbn in Hlen'; lia|].
    cbn [echo_loop]. destruct (wr calls) as [k| | |]; try reflexivity.
    set (bytes_written := Nat.min (Pos.to_nat k) (length (b :: pending))).
    assert (Hd : (length (drop bytes_written (b :: pending)) <= length pending)%nat).
    { rewrite length_drop. subst bytes_written. cbn [length]. lia. }
    cbn [length] in Hlen, Hlen'.
    rewrite (IH fuel' (S calls) (drop bytes_written (b :: pending))) by lia.
    reflexivity.
Qed.

Lemma read_loop_fuel (wr : nat → write_result) (e : read_end) (fuel : nat) :
  ∀ fuel' calls rx,
    (length rx <= fuel)%nat → (length rx <= fuel')%nat →
    read_loop fuel wr calls rx e = read_loop fuel' wr calls rx e.
Proof.
  induction fuel as [|fuel IH]; intros fuel' calls rx Hlen Hlen'.
  - destruct rx; [by destruct fuel' | cbn in Hlen; lia].
  - destruct rx as [|b rx]; [by destruct fuel'|].
    destruct fuel' as [|fuel']; [cbn in Hlen'; lia|].
    cbn [read_loop].
    destruct (echo_chunk wr calls (take (Z.to_nat BUFFER_SIZE) (b :: rx)))
      as [[[] calls'] out]; try reflexivity.
    all: rewrite (IH fuel' calls' (drop (Z.to_nat BUFFER_SIZE) (b :: rx)));
      [reflexivity | |]; rewrite length_drop; cbn [length] in *;
      unfold BUFFER_SIZE; lia.
Qed.

Lemma echo_loop_accepted (wr : nat → write_result) (fuel : nat) :
  writes_accepted wr →
  ∀ calls pending, (length pending <= fuel)%nat →
    ∃ calls', echo_loop fuel wr calls pending = (EchoDone, calls', pending).
Proof.
  intros Hwr. induction fuel as [|fuel IH]; intros calls pending Hlen.
  - destruct pending; [|cbn in Hlen; lia]. by exists calls.
  - destruct pending as [|b pending]; [by exists calls|].
    cbn [echo_loop]. destruct (Hwr calls) as [k ->].
    set (bytes_written := Nat.min (Pos.to_nat k) (length (b :: pending))).
    assert (Hbw : (1 <= bytes_written <= length (b :: pending))%nat)
      by (subst bytes_written; cbn [length]; lia).
    destruct (IH (S calls) (drop bytes_written (b :: pending))) as [calls' ->].
    { rewrite length_drop. cbn [length] in *. lia. }
    exists calls'. by rewrite take_drop.
Qed.

Lemma read_loop_accepted (wr : nat → write_result) (e : read_end) (fuel : nat) :
  writes_accepted wr →
  ∀ calls rx, (length rx <= fuel)%nat →
    read_loop fuel wr calls rx e
    = (match e with ReadWouldBlock => ClientOpen | _ => ClientClosed end, rx).
Proof.
  intros Hwr. induction fuel as [|fuel IH]; intros calls rx Hlen.
  - destruct rx; [|cbn in Hlen; lia]. by destruct e.
  - destruct rx as [|b rx]; [by destruct e|].
    cbn [read_loop]. unfold echo_chunk.
    set (chunk := take (Z.to_nat BUFFER_SIZE) (b :: rx)).
    destruct (echo_loop_accepted wr (length chunk) Hwr calls chunk) as [calls' ->];
      [done|].
    rewrite IH.
    + subst chunk. by rewrite take_drop.
    + rewrite length_drop. cbn [length] in *. unfold BUFFER_SIZE. lia.
Qed.


(** ** A write that would block *)









End EchoFacts.

(* ================================================================== *)
(** * The result of a trial and its log line                           *)
(* ================================================================== *)

Section ResultFacts.
Import Machine Tester.

Lemma int32_small (x : Z) : - 2 ^ 31 <= x <= INT_MAX → int32 x = x.
Proof. unfold INT_MAX, int32. intros H. rewrite Z.mod_small; lia. Qed.

Lemma requests_counted (n : nat) :
  Z.of_nat n <= INT_MAX → int32 (size_t (Z.of_nat n)) = Z.of_nat n.
Proof.
  intros H. unfold INT_MAX in H. unfold size_t.
  rewrite Z.mod_small by lia. apply int32_small. unfold INT_MAX. lia.
Qed.

(** C6. The success rate of a trial is 100% if at least one latency
    sample was recorded and 0% otherwise (the number of samples fitting
    an [int], as it does for any trial that can be run). *)
Theorem success_rate_all_or_nothing (client_count : Z) (m : measurement) :
  Z.of_nat (length (m_latencies m)) <= INT_MAX →
  success_rate (calculate_result client_count m)
  = match m_latencies m with
    | [] => d_zero
    | _ :: _ => d_hundred
    end.
Proof.
  intros H. unfold calculate_result. cbn [success_rate].
  rewrite requests_counted by exact H.
  destruct (m_latencies m) as [|x l]; [reflexivity|].
  assert ((0 <? Z.of_nat (length (x :: l))) = true) as ->
    by (apply Z.ltb_lt; cbn [length]; lia).
  reflexivity.
Qed.

Lemma success_rate_all_or_nothing_witness :
  success_rate (calculate_result 10 (sample_measurement [d_hundred])) = d_hundred
  ∧ success_rate (calculate_result 10 (sample_measurement [])) = d_zero.
Proof.
  split.
  - apply (success_rate_all_or_nothing 10 (sample_measurement [d_hundred])).
    cbn. unfold INT_MAX. lia.
  - apply (success_rate_all_or_nothing 10 (sample_measurement [])).
    cbn. unfold INT_MAX. lia.
Defined.

(** Every line written carries one of the results handed to the logger. *)
Lemma log_results_lines (Q : ScalabilityResult → Prop) (is_open : bool)
    (results : list ScalabilityResult) :
  Forall Q results →
  ∀ st, Forall (λ l, Q (line_result l)) (log_results is_open st results).2.
Proof.
  induction 1 as [|r results Hr _ IH]; intros st; cbn [log_results].
  - constructor.
  - destruct (log_result is_open st r) as [st' l] eqn:Hl.
    specialize (IH st'). destruct (log_results is_open st' results) as [st'' ls].
    cbn [snd] in *. apply Forall_app. split; [|exact IH].
    unfold log_result in Hl. destruct is_open; cbn [negb] in Hl.
    + destruct (negb (tcp_done st)); injection Hl as _ <-; by repeat constructor.
    + injection Hl as _ <-. constructor.
Qed.

Lemma calculate_result_totals (client_count : Z) (m : measurement) :
  total_requests (calculate_result client_count m)
  = successful_requests (calculate_result client_count m).
Proof. reflexivity. Qed.

(** C9. In every result the tester computes, total requests and
    successful requests are the same number, the number of latency
    samples recorded, so the two never differ on a logged line; and the
    success rate is 100% exactly when total requests is positive. *)
Theorem total_equals_successful (client_count : Z) (m : measurement)
    (measure : string → Z → measurement) (is_open : bool) :
  let r := calculate_result client_count m in
  total_requests r = successful_requests r
  ∧ (success_rate r = d_hundred ↔ 0 < total_requests r)
  ∧ (Z.of_nat (length (m_latencies m)) <= INT_MAX →
     total_requests r = Z.of_nat (length (m_latencies m)))
  ∧ Forall (λ l, total_requests (line_result l)
                 = successful_requests (line_result l))
      (run_scalability_tests measure is_open).
Proof.
  cbn zeta. split; [apply calculate_result_totals|].
  unfold calculate_result at 1 2 3. cbn [total_requests success_rate].
  split; [|split].
  - destruct (0 <? _) eqn:E.
    + apply Z.ltb_lt in E. tauto.
    + apply Z.ltb_ge in E. split; [discriminate | lia].
  - apply requests_counted.
  - unfold run_scalability_tests.
    apply (log_results_lines
             (λ r, total_requests r = successful_requests r)).
    apply Forall_app. split; unfold run_scalability;
      apply Forall_fmap, Forall_forall; intros n _; apply calculate_result_totals.
Qed.

Lemma total_equals_successful_witness :
  total_requests (calculate_result 10 (sample_measurement [d_hundred; d_zero])) = 2
  ∧ successful_requests (calculate_result 10 (sample_measurement [d_hundred; d_zero])) = 2.
Proof.
  destruct (total_equals_successful 10 (sample_measurement [d_hundred; d_zero])
              (λ _ _, sample_measurement []) true)
    as (Heq & _ & Hcount & _).
  rewrite <- Heq. split; apply Hcount; cbn; unfold INT_MAX; lia.
Defined.

(** ** The protocol label *)

Lemma log_results_closed (st : log_statics) (results : list ScalabilityResult) :
  log_results false st results = (st, []).
Proof.
  induction results as [|r results IH]; [reflexivity|].
  cbn [log_results log_result negb]. rewrite IH. reflexivity.
Qed.

Lemma log_results_udp (st : log_statics) (results : list ScalabilityResult) :
  tcp_done st = true →
  log_results true st results = (st, Build_log_line "UDP" <$> results).
Proof.
  intros Hdone. induction results as [|r results IH]; [reflexivity|].
  cbn [log_results]. unfold log_result. rewrite Hdone. cbn [negb].
  rewrite IH. reflexivity.
Qed.

Lemma log_results_tcp (results : list ScalabilityResult) :
  ∀ st (left : nat),
    tcp_done st = false →
    tcp_tests_completed st = 9 - Z.of_nat left →
    (1 <= left <= 9)%nat →
    (log_results true st results).2
    = (Build_log_line "TCP" <$> take left results)
        ++ (Build_log_line "UDP" <$> drop left results).
Proof.
  induction results as [|r results IH]; intros st left Hdone Hcount Hleft.
  - by rewrite take_nil, drop_nil.
  - cbn [log_results]. unfold log_result. rewrite Hdone. cbn [negb].
    rewrite Hcount, int32_small by (unfold INT_MAX; lia).
    destruct left as [|left]; [lia|]. cbn [take drop fmap list_fmap].
    destruct (decide (left = 0%nat)) as [->|Hne].
    + cbn. rewrite log_results_udp by reflexivity.
      cbn. by rewrite take_0, drop_0.
    + assert ((9 <=? 9 - Z.of_nat (S left) + 1) = false) as ->
        by (apply Z.leb_gt; lia).
      specialize (IH {| tcp_done := false;
                        tcp_tests_completed := 9 - Z.of_nat (S left) + 1 |} left).
      cbn [tcp_done tcp_tests_completed] in IH.
      destruct (log_results true _ results) as [st' ls].
      cbn [snd option_list app] in *. rewrite IH; [reflexivity|reflexivity|lia|lia].
Qed.

Lemma log_results_open (results : list ScalabilityResult) :
  (log_results true log_statics_init results).2
  = (Build_log_line "TCP" <$> take 9 results)
      ++ (Build_log_line "UDP" <$> drop 9 results).
Proof. apply log_results_tcp; [reflexivity | reflexivity | lia]. Qed.

(** C10. The protocol label of a log line depends only on the position
    of the call: the first nine results handed to the logger are written
    as "TCP" and all later ones as "UDP", whatever the results are (and
    when the log file is not open nothing is written). *)
Theorem log_protocol_by_call_order (results : list ScalabilityResult) :
  (log_results true log_statics_init results).2
  = (Build_log_line "TCP" <$> take 9 results)
      ++ (Build_log_line "UDP" <$> drop 9 results)
  ∧ (log_results false log_statics_init results).2 = [].
Proof.
  split.
  - apply log_results_open.
  - by rewrite log_results_closed.
Qed.

(** In a run of the tester the labels happen to be right: nine stream
    trials are logged first, then nine datagram trials. *)
Lemma run_scalability_tests_labels (measure : string → Z → measurement) :
  run_scalability_tests measure true
  = (Build_log_line "TCP" <$> run_scalability measure "TCP")
      ++ (Build_log_line "UDP" <$> run_scalability measure "UDP").
Proof.
  unfold run_scalability_tests. rewrite log_results_open. reflexivity.
Qed.

End ResultFacts.

(* ================================================================== *)
(** * Percentiles                                                      *)
(* ================================================================== *)

Section OrderFacts.
Import SpecFloat Tester.

(** [<=] on doubles, read off [SFcompare]. *)
Ltac compare_cases :=
  repeat match goal with
    | |- context [Z.compare ?a ?b] => destruct (Z.compare_spec a b)
    | |- context [Pos.compare ?a ?b] => destruct (Pos.compare_spec a b)
    end.

Lemma le_trans (x y z : double) : le x y → le y z → le x z.
Proof.
  unfold le, SFleb, SFcompare.
  change (Pos.compare_cont Eq) with Pos.compare.
  destruct x as [sx|sx| |sx mx ex], y as [sy|sy| |sy my ey], z as [sz|sz| |sz mz ez];
    try discriminate; try reflexivity;
    try (destruct sx; try discriminate; try reflexivity);
    try (destruct sy; try discriminate; try reflexivity);
    try (destruct sz; try discriminate; try reflexivity).
  all: compare_cases; cbn; try discriminate; try reflexivity; subst; lia.
Qed.

Lemma le_total (x y : double) :
  is_number x = true → is_number y = true → le x y ∨ le y x.
Proof.
  unfold le, SFleb, SFcompare.
  change (Pos.compare_cont Eq) with Pos.compare.
  destruct x as [sx|sx| |sx mx ex], y as [sy|sy| |sy my ey];
    try discriminate; intros _ _;
    try (destruct sx); try (destruct sy); auto.
  all: compare_cases; cbn; auto; subst; lia.
Qed.

Lemma le_refl (x : double) : is_number x = true → le x x.
Proof. intros H. destruct (le_total x x H H); assumption. Qed.

Lemma le_is_number (x y : double) :
  le x y → is_number x = true ∧ is_number y = true.
Proof. unfold le, SFleb. destruct x, y; cbn; try discriminate; auto. Qed.

(** [operator<] in terms of [<=]. *)
Lemma lt_le (x y : double) : SFltb x y = true → le x y.
Proof. unfold le, SFltb, SFleb. by destruct (SFcompare x y) as [[]|]. Qed.

Lemma not_lt_le (x y : double) :
  is_number x = true → is_number y = true → SFltb x y = false → le y x.
Proof.
  unfold le, SFltb, SFleb, SFcompare.
  change (Pos.compare_cont Eq) with Pos.compare.
  destruct x as [sx|sx| |sx mx ex], y as [sy|sy| |sy my ey];
    try discriminate; intros _ _;
    try (destruct sx); try (destruct sy); try discriminate; try reflexivity.
  all: compare_cases; cbn; try discriminate; try reflexivity; subst; lia.
Qed.

End OrderFacts.

Section SortFacts.
Import SpecFloat Tester.

Lemma sort_insert_perm (x : double) (l : list double) :
  Permutation (sort_insert x l) (x :: l).
Proof.
  induction l as [|y l IH]; cbn [sort_insert]; [reflexivity|].
  destruct (SFltb x y); [reflexivity|].
  rewrite IH. apply perm_swap.
Qed.

Lemma std_sort_perm (l : list double) : Permutation (std_sort l) l.
Proof.
  induction l as [|x l IH]; cbn; [reflexivity|].
  fold (std_sort l). rewrite sort_insert_perm. by constructor.
Qed.

Lemma std_sort_length (l : list double) : length (std_sort l) = length l.
Proof. apply Permutation_length, std_sort_perm. Qed.

Lemma sort_insert_ascending (x : double) (l : list double) :
  is_number x = true → Forall (λ y, is_number y = true) l →
  ascending l → ascending (sort_insert x l).
Proof.
  intros Hx. induction l as [|y l IH]; intros Hnum Hasc; cbn [sort_insert].
  - repeat constructor.
  - apply Forall_cons in Hnum as [Hy Hnum].
    apply StronglySorted_inv in Hasc as [Hasc Hall].
    destruct (SFltb x y) eqn:Hlt.
    + constructor; [by constructor|].
      apply lt_le in Hlt. constructor; [exact Hlt|].
      eapply Forall_impl; [exact Hall|]. intros z Hz. by eapply le_trans.
    + constructor; [by apply IH|].
      rewrite sort_insert_perm. constructor; [|exact Hall].
      by apply not_lt_le.
Qed.

Lemma std_sort_ascending (l : list double) :
  Forall (λ y, is_number y = true) l → ascending (std_sort l).
Proof.
  induction l as [|x l IH]; intros Hnum; cbn.
  - constructor.
  - fold (std_sort l). apply Forall_cons in Hnum as [Hx Hnum].
    apply sort_insert_ascending; [exact Hx| |by apply IH].
    by rewrite std_sort_perm.
Qed.

(** In an ascending vector of numbers, a later element is not smaller. *)
Lemma ascending_lookup (l : list double) :
  Forall (λ y, is_number y = true) l → ascending l →
  ∀ i j x y, (i <= j)%nat → l !! i = Some x → l !! j = Some y → le x y.
Proof.
  intros Hnum Hasc. induction Hasc as [|z l Hasc IH Hall]; intros i j x y Hij Hi Hj.
  - by rewrite lookup_nil in Hi.
  - apply Forall_cons in Hnum as [Hz Hnum].
    destruct i as [|i], j as [|j]; cbn in Hi, Hj; try lia.
    + injection Hi as <-. injection Hj as <-. by apply le_refl.
    + injection Hi as <-. rewrite Forall_forall in Hall.
      apply Hall. eapply list_elem_of_lookup_2, Hj.
    + eapply IH; [exact Hnum | | exact Hi | exact Hj]. lia.
Qed.

End SortFacts.

Section IndexFacts.
Import Machine Tester.

(** The loop's index is the index in words, as long as [size * 100]
    fits [size_t]. *)
Lemma percentile_index_nearest_rank (size p : Z) :
  1 <= size → size * 100 < 2 ^ 64 → 1 <= p <= 100 →
  percentile_index size p = nearest_rank_index size p.
Proof.
  intros Hsize Hfit Hp. unfold percentile_index, nearest_rank_index, size_t.
  rewrite (Z.mod_small (size * p)) by nia.
  assert (Hq : 0 <= size * p / 100 <= size).
  { split; [apply Z.div_pos; nia|]. apply Z.div_le_upper_bound; nia. }
  destruct (0 <? size * p / 100) eqn:Hpos.
  - apply Z.ltb_lt in Hpos.
    assert ((size * p / 100 =? 0) = false) as -> by (apply Z.eqb_neq; lia).
    assert ((size <=? size * p / 100 - 1) = false) as -> by (apply Z.leb_gt; lia).
    lia.
  - apply Z.ltb_ge in Hpos.
    assert (Hz : size * p / 100 = 0) by lia. rewrite Hz. cbn [Z.eqb].
    assert ((size <=? 0) = false) as -> by (apply Z.leb_gt; lia).
    lia.
Qed.

Lemma nearest_rank_index_range (n p : Z) :
  1 <= n → 0 <= nearest_rank_index n p < n.
Proof. intros Hn. unfold nearest_rank_index. cbv zeta. lia. Qed.

Lemma percentile_index_range (size p : Z) :
  1 <= size → size * 100 < 2 ^ 64 → 1 <= p <= 100 →
  0 <= percentile_index size p < size.
Proof.
  intros Hsize Hfit Hp. rewrite percentile_index_nearest_rank by assumption.
  by apply nearest_rank_index_range.
Qed.

Lemma nearest_rank_index_mono (n p q : Z) :
  1 <= n → 1 <= p <= q →
  nearest_rank_index n p <= nearest_rank_index n q.
Proof.
  intros Hn Hpq. unfold nearest_rank_index. cbv zeta.
  assert (Hdiv : n * p / 100 <= n * q / 100) by (apply Z.div_le_mono; nia).
  assert (0 <= n * p / 100) by (apply Z.div_pos; nia).
  destruct (Z.eqb_spec (n * p / 100) 0), (Z.eqb_spec (n * q / 100) 0); lia.
Qed.

Lemma nearest_rank_index_100 (n : Z) :
  1 <= n → nearest_rank_index n 100 = n - 1.
Proof.
  intros Hn. unfold nearest_rank_index. cbv zeta.
  rewrite Z.div_mul by lia.
  destruct (Z.eqb_spec n 0); lia.
Qed.

End IndexFacts.

Section PercentileFacts.
Import Machine SpecFloat Tester.

Lemma at_index_lookup (v : list double) (i : Z) (x : double) :
  v !! Z.to_nat i = Some x → at_index v i = x.
Proof. intros H. unfold at_index. rewrite nth_lookup, H. reflexivity. Qed.

Lemma at_index_in_range (v : list double) (i : Z) :
  0 <= i < Z.of_nat (length v) → v !! Z.to_nat i = Some (at_index v i).
Proof.
  intros Hi. destruct (lookup_lt_is_Some_2 v (Z.to_nat i)) as [x Hx]; [lia|].
  by rewrite (at_index_lookup _ _ _ Hx).
Qed.

(** Each percentile is the element of the sorted samples at the loop's
    index. *)
Lemma calculate_all_percentiles_P (data : list double) (p : Z) :
  data ≠ [] → 1 <= p <= 100 →
  P (calculate_all_percentiles data) p
  = at_index (std_sort data)
      (percentile_index (Z.of_nat (length (std_sort data))) p).
Proof.
  intros Hdata Hp. destruct data as [|x data]; [done|].
  unfold calculate_all_percentiles, P.
  apply at_index_lookup.
  rewrite list_lookup_fmap, lookup_seqZ_lt by lia.
  cbn [fmap option_fmap option_map]. do 3 f_equal. lia.
Qed.

Lemma calculate_all_percentiles_length (data : list double) :
  length (calculate_all_percentiles data) = 100%nat.
Proof.
  destruct data; [reflexivity|].
  unfold calculate_all_percentiles. by rewrite length_fmap, length_seqZ.
Qed.

(** C3. The percentiles of an empty sample set are 100 zeros.  For a
    non-empty set of samples (numbers, few enough that [n * 100] fits
    [size_t]) the samples are sorted ascending and P-p is the sorted
    sample at index [floor(n * p / 100)], less one unless 0, kept within
    [0, n - 1]; hence P1 <= P2 <= ... <= P100, and P100 is the largest
    sample. *)
Theorem percentiles_nearest_rank (data : list double) :
  calculate_all_percentiles [] = replicate 100 d_zero
  ∧ (data ≠ [] →
     Forall (λ x, is_number x = true) data →
     Z.of_nat (length data) * 100 < 2 ^ 64 →
     let n := Z.of_nat (length data) in
     let sorted := std_sort data in
     let ps := calculate_all_percentiles data in
     Permutation sorted data
     ∧ ascending sorted
     ∧ length ps = 100%nat
     ∧ (∀ p, 1 <= p <= 100 → P ps p = at_index sorted (nearest_rank_index n p))
     ∧ (∀ p q, 1 <= p <= q → q <= 100 → le (P ps p) (P ps q))
     ∧ P ps 100 ∈ data
     ∧ (∀ x, x ∈ data → le x (P ps 100))).
Proof.
  split; [reflexivity|]. intros Hdata Hnum Hfit n sorted ps.
  assert (Hperm : Permutation sorted data) by apply std_sort_perm.
  assert (Hlen : Z.of_nat (length sorted) = n)
    by (subst n sorted; by rewrite std_sort_length).
  assert (Hn : 1 <= n) by (subst n; destruct data; [done | cbn [length]; lia]).
  assert (Hsnum : Forall (λ x, is_number x = true) sorted) by (by rewrite Hperm).
  assert (Hasc : ascending sorted) by (by apply std_sort_ascending).
  assert (HP : ∀ p, 1 <= p <= 100 →
               P ps p = at_index sorted (nearest_rank_index n p)).
  { intros p Hp. subst ps. rewrite calculate_all_percentiles_P by done.
    fold sorted. rewrite Hlen.
    by rewrite percentile_index_nearest_rank by (subst n; lia). }
  assert (Hat : ∀ p, 1 <= p <= 100 →
                sorted !! Z.to_nat (nearest_rank_index n p) = Some (P ps p)).
  { intros p Hp. rewrite HP by done. apply at_index_in_range.
    rewrite Hlen. by apply nearest_rank_index_range. }
  split; [exact Hperm|]. split; [exact Hasc|].
  split; [apply calculate_all_percentiles_length|].
  split; [exact HP|]. split; [|split].
  - intros p q Hpq Hq.
    eapply (ascending_lookup sorted Hsnum Hasc); [|apply Hat|apply Hat]; try lia.
    pose proof (nearest_rank_index_mono n p q Hn Hpq).
    pose proof (nearest_rank_index_range n p Hn). lia.
  - rewrite <- Hperm. eapply list_elem_of_lookup_2, Hat. lia.
  - intros x Hx. rewrite <- Hperm in Hx.
    apply list_elem_of_lookup_1 in Hx as [i Hi].
    eapply (ascending_lookup sorted Hsnum Hasc); [|exact Hi|apply Hat; lia].
    apply lookup_lt_Some in Hi. rewrite nearest_rank_index_100 by done. lia.
Qed.

Lemma percentiles_nearest_rank_witness :
  P (calculate_all_percentiles three_samples) 100 ∈ three_samples
  ∧ le (P (calculate_all_percentiles three_samples) 1)
       (P (calculate_all_percentiles three_samples) 50).
Proof.
  destruct (percentiles_nearest_rank three_samples) as [_ H].
  destruct H as (_ & _ & _ & _ & Hmono & Hmax & _).
  - discriminate.
  - repeat constructor.
  - cbn. lia.
  - split; [exact Hmax | apply Hmono; lia].
Defined.

End PercentileFacts.

(* ================================================================== *)
(** * Workers and the stop flag                                        *)
(* ================================================================== *)

Section StopFacts.
Import Tester.

Lemma count_action_app (w : nat) (a : action) (es es' : list event) :
  count_action w a (es ++ es') = (count_action w a es + count_action w a es')%nat.
Proof. unfold count_action. by rewrite filter_app, length_app. Qed.

Lemma count_action_one (w w' : nat) (a a' : action) :
  count_action w a [Did w' a']
  = if decide (w' = w ∧ a' = a) then 1%nat else 0%nat.
Proof.
  unfold count_action. cbn [filter list_filter].
  destruct (decide (Did w' a' = Did w a)) as [E|E], (decide (w' = w ∧ a' = a)) as [F|F];
    try reflexivity.
  - exfalso. apply F. by injection E.
  - exfalso. apply E. destruct F as [-> ->]. reflexivity.
Qed.

Lemma count_action_raised (w : nat) (a : action) :
  count_action w a [Raised] = 0%nat.
Proof.
  unfold count_action. cbn [filter list_filter].
  destruct (decide (Raised = Did w a)); [discriminate | reflexivity].
Qed.

Lemma count_action_nil (w : nat) (a : action) : count_action w a [] = 0%nat.
Proof. reflexivity. Qed.

(** With the flag up, a step of a worker starts no iteration and uses
    up what the worker had left. *)
Lemma worker_step_stopped (proto : protocol) (ok : bool) (pc : worker_pc) :
  let '(pc', a) := worker_step proto true ok pc in
  a ≠ Entered
  ∧ ((if decide (a = SendCalled) then 1 else 0) + sends_left pc' <= sends_left pc)%nat
  ∧ ((if decide (a = Recorded) then 1 else 0) + records_left pc' <= records_left pc)%nat.
Proof.
  destruct proto, ok, pc; vm_compute; repeat split;
    try (intros E; discriminate E); repeat constructor.
Qed.

Lemma trial_step_stop_kept (proto : protocol) (t : trial) (c : choice) :
  stop_test t = true → stop_test (trial_step proto t c).1 = true.
Proof.
  intros Hstop. destruct c as [|w ok]; cbn; [reflexivity|].
  destruct (workers t !! w); [|exact Hstop].
  destruct (worker_step proto (stop_test t) ok w0). exact Hstop.
Qed.

Lemma trial_step_stopped (proto : protocol) (t : trial) (c : choice) (w : nat) :
  stop_test t = true →
  let '(t', es) := trial_step proto t c in
  count_action w Entered es = 0%nat
  ∧ (count_action w SendCalled es + sends_left (pc_of t' w)
     <= sends_left (pc_of t w))%nat
  ∧ (count_action w Recorded es + records_left (pc_of t' w)
     <= records_left (pc_of t w))%nat.
Proof.
  intros Hstop. destruct c as [|w' ok]; cbn [trial_step].
  - rewrite !count_action_raised. unfold pc_of. cbn [workers]. lia.
  - destruct (workers t !! w') as [pc|] eqn:Hpc;
      [|rewrite !count_action_nil; lia].
    rewrite Hstop. pose proof (worker_step_stopped proto ok pc) as Hstep.
    destruct (worker_step proto true ok pc) as [pc' a].
    destruct Hstep as (Ha & Hs & Hr).
    rewrite !count_action_one. unfold pc_of. cbn [workers].
    destruct (decide (w' = w)) as [->|Hne].
    + rewrite list_lookup_insert_eq by (by eapply lookup_lt_Some).
      rewrite Hpc. cbn [default from_option id].
      repeat split.
      * destruct (decide (w = w ∧ a = Entered)) as [[_ E]|]; [done | reflexivity].
      * destruct (decide (a = SendCalled)), (decide (w = w ∧ a = SendCalled)); tauto || lia.
      * destruct (decide (a = Recorded)), (decide (w = w ∧ a = Recorded)); tauto || lia.
    + rewrite list_lookup_insert_ne by done.
      repeat split.
      * destruct (decide (w' = w ∧ a = Entered)) as [[E _]|]; [done | reflexivity].
      * destruct (decide (w' = w ∧ a = SendCalled)) as [[E _]|]; [done | lia].
      * destruct (decide (w' = w ∧ a = Recorded)) as [[E _]|]; [done | lia].
Qed.

(** With the flag up, whatever the interleaving: no worker begins an
    iteration, and each sends and records at most what it had left. *)
Lemma trial_run_stopped (proto : protocol) (schedule : list choice) (w : nat) :
  ∀ t, stop_test t = true →
    let es := (trial_run proto t schedule).2 in
    count_action w Entered es = 0%nat
    ∧ (count_action w SendCalled es <= sends_left (pc_of t w))%nat
    ∧ (count_action w Recorded es <= records_left (pc_of t w))%nat.
Proof.
  induction schedule as [|c schedule IH]; intros t Hstop; cbn [trial_run].
  - cbn [snd]. rewrite !count_action_nil. lia.
  - pose proof (trial_step_stopped proto t c w Hstop) as Hstep.
    pose proof (trial_step_stop_kept proto t c Hstop) as Hkept.
    destruct (trial_step proto t c) as [t' es]. cbn [fst] in Hkept.
    specialize (IH t' Hkept). cbn zeta in IH.
    destruct (trial_run proto t' schedule) as [t'' es']. cbn [snd] in *.
    rewrite !count_action_app. lia.
Qed.

Lemma trial_run_app (proto : protocol) (s1 s2 : list choice) (t : trial) :
  (trial_run proto t (s1 ++ s2)).1
  = (trial_run proto (trial_run proto t s1).1 s2).1.
Proof.
  revert t. induction s1 as [|c s1 IH]; intros t; cbn [app trial_run]; [reflexivity|].
  destruct (trial_step proto t c) as [t' es]. specialize (IH t').
  destruct (trial_run proto t' (s1 ++ s2)), (trial_run proto t' s1). exact IH.
Qed.

(** C7, as stated, fails.  In this interleaving of a trial with one
    worker, the worker passes the loop test, then the flag is raised, and
    only then does the worker send its request and record the reply: no
    request was in flight when the flag went up, and one was sent after
    it.  A stream worker and a datagram worker behave alike. *)
Lemma request_sent_after_stop :
  trial_run Tcp (trial_init 1)
    [Run 0 true; Run 0 true; RaiseStop; Run 0 true; Run 0 true]
  = ({| stop_test := true; workers := [Pausing] |},
     [Did 0 Silent; Did 0 Entered; Raised; Did 0 SendCalled; Did 0 Recorded])
  ∧ trial_run Udp (trial_init 1)
      [Run 0 true; Run 0 true; RaiseStop; Run 0 true; Run 0 true]
    = ({| stop_test := true; workers := [Pausing] |},
       [Did 0 Silent; Did 0 Entered; Raised; Did 0 SendCalled; Did 0 Recorded]).
Proof. split; reflexivity. Qed.

(** C7, amended.  Once the stop flag has been raised, in any interleaving
    of the workers of a trial, stream or datagram, no worker passes its
    loop test again, so none begins another iteration of its request
    loop.  What a worker still does is bounded by where it was when the
    flag went up: only a worker that had passed the loop test and not yet
    sent sends a request, that one; only a worker inside an iteration
    records a reply, that one; so after the flag is up each worker sends
    at most one request and records at most one reply. *)
Theorem stop_ends_requests (proto : protocol) (client_count : nat)
    (before after : list choice) (w : nat) :
  let raised :=
    (trial_run proto (trial_init client_count) (before ++ [RaiseStop])).1 in
  let es := (trial_run proto raised after).2 in
  stop_test raised = true
  ∧ count_action w Entered es = 0%nat
  ∧ (count_action w SendCalled es <= sends_left (pc_of raised w) <= 1)%nat
  ∧ (count_action w Recorded es <= records_left (pc_of raised w) <= 1)%nat.
Proof.
  intros raised es.
  assert (Hstop : stop_test raised = true).
  { subst raised. rewrite trial_run_app. cbn [trial_run trial_step fst].
    reflexivity. }
  split; [exact Hstop|].
  destruct (trial_run_stopped proto after w raised Hstop) as (He & Hs & Hr).
  fold es in He, Hs, Hr. split; [exact He|].
  assert (sends_left (pc_of raised w) <= 1)%nat by (destruct (pc_of raised w); cbn; lia).
  assert (records_left (pc_of raised w) <= 1)%nat by (destruct (pc_of raised w); cbn; lia).
  lia.
Qed.

(** A worker does stop: with the flag up, a worker at the loop test
    leaves the loop at its next step. *)
Lemma worker_step_exits (proto : protocol) (ok : bool) :
  worker_step proto true ok LoopTest = (Finished, Silent).
Proof. by destruct proto. Qed.

End StopFacts.

(* ================================================================== *)
(** * Accepting, closing, startup and shutdown                         *)
(* ================================================================== *)

Section ReactorFacts.
Import Machine Server.

Lemma int32_add_l (x y : Z) : int32 (int32 x + y) = int32 (x + y).
Proof.
  unfold int32.
  replace ((x + 2 ^ 31) mod 2 ^ 32 - 2 ^ 31 + y + 2 ^ 31)
    with ((x + 2 ^ 31) mod 2 ^ 32 + y) by lia.
  rewrite Z.add_mod_idemp_l by lia.
  replace (x + 2 ^ 31 + y) with (x + y + 2 ^ 31) by lia. reflexivity.
Qed.

Lemma int32_is_int (x : Z) : is_int (int32 x).
Proof.
  unfold is_int, int32, INT_MAX.
  pose proof (Z.mod_pos_bound (x + 2 ^ 31) (2 ^ 32)). lia.
Qed.

Lemma int32_of_int (x : Z) : is_int x → int32 x = x.
Proof. unfold is_int. intros H. apply int32_small. lia. Qed.

Lemma handle_tcp_connection_eq (backlog : list accept_result) :
  ∀ r,
    handle_tcp_connection r backlog
    = ({| tcp_connections :=
            if accepted backlog is [] then tcp_connections r
            else int32 (tcp_connections r + Z.of_nat (length (accepted backlog)));
          clients :=
            list_to_set (fst <$> List.filter snd (accepted backlog)) ∪ clients r |},
       fst <$> List.filter (λ c, negb c.2) (accepted backlog)).
Proof.
  assert (Hnone : ∀ r : Reactor,
    r = {| tcp_connections := tcp_connections r;
           clients := list_to_set (fst <$> List.filter snd []) ∪ clients r |}).
  { intros [count cs]. cbn. by rewrite union_empty_l_L. }
  induction backlog as [|[fd ok| |] backlog IH]; intros r.
  - cbn [handle_tcp_connection accepted fmap list_fmap List.filter].
    f_equal. apply Hnone.
  - cbn [handle_tcp_connection accepted List.filter snd fst length].
    assert (Hcount : ∀ c,
      (if accepted backlog is [] then int32 (c + 1)
       else int32 (int32 (c + 1) + Z.of_nat (length (accepted backlog))))
      = int32 (c + Z.of_nat (S (length (accepted backlog))))).
    { intros c. destruct (accepted backlog).
      - cbn [length]. f_equal.
      - rewrite int32_add_l. f_equal. lia. }
    destruct ok; cbn [negb]; rewrite IH; cbn [tcp_connections clients].
    + rewrite Hcount. f_equal. f_equal. cbn [fmap list_fmap fst].
      rewrite list_to_set_cons. apply set_eq. intros x.
      rewrite !elem_of_union. tauto.
    + rewrite Hcount. reflexivity.
  - cbn [handle_tcp_connection accepted fmap list_fmap List.filter].
    f_equal. apply Hnone.
  - cbn [handle_tcp_connection accepted fmap list_fmap List.filter].
    f_equal. apply Hnone.
Qed.

(** The accept loop takes the connections that come before the first
    failure and leaves the rest.  The counter grows by one for each of
    them; those whose registration succeeded join the registered clients;
    those whose registration failed are closed again but stay counted. *)
Theorem accept_loop_counts (r : Reactor) (backlog : list accept_result) :
  is_int (tcp_connections r) →
  let r' := (handle_tcp_connection r backlog).1 in
  let closed := (handle_tcp_connection r backlog).2 in
  tcp_connections r'
  = int32 (tcp_connections r + Z.of_nat (length (accepted backlog)))
  ∧ clients r'
    = list_to_set (fst <$> List.filter snd (accepted backlog)) ∪ clients r
  ∧ closed = fst <$> List.filter (λ c, negb c.2) (accepted backlog).
Proof.
  intros Hint. cbn zeta. rewrite handle_tcp_connection_eq.
  cbn [fst snd tcp_connections clients]. split; [|split; reflexivity].
  destruct (accepted backlog); [|reflexivity].
  cbn [length]. rewrite Z.add_0_r. symmetry. by apply int32_of_int.
Qed.

Lemma accept_loop_counts_witness :
  tcp_connections
    (handle_tcp_connection {| tcp_connections := 0; clients := ∅ |}
       [Accepted 7 true; Accepted 8 false; AcceptTooManyFiles; Accepted 9 true]).1
  = 2.
Proof.
  destruct (accept_loop_counts {| tcp_connections := 0; clients := ∅ |}
              [Accepted 7 true; Accepted 8 false; AcceptTooManyFiles; Accepted 9 true])
    as (H & _ & _).
  - unfold is_int, INT_MAX. cbn. lia.
  - exact H.
Defined.

(** Accepting a connection and closing it again leaves the counter and
    the registered clients as they were. *)
Theorem accept_then_close (r : Reactor) (client_fd : Z) :
  is_int (tcp_connections r) → client_fd ∉ clients r →
  close_client (handle_tcp_connection r [Accepted client_fd true]).1 client_fd = r.
Proof.
  intros Hint Hfresh. destruct r as [count cs].
  cbn [tcp_connections clients] in *.
  unfold close_client. cbn [handle_tcp_connection fst tcp_connections clients].
  f_equal.
  - replace (int32 (count + 1) - 1) with (int32 (count + 1) + -1) by lia.
    rewrite int32_add_l. replace (count + 1 + -1) with count by lia.
    by apply int32_of_int.
  - apply set_eq. intros x. rewrite elem_of_difference, elem_of_union,
      elem_of_singleton. split; [tauto|]. intros Hx. split; [tauto|].
    intros ->. done.
Qed.

Lemma accept_then_close_witness :
  close_client
    (handle_tcp_connection {| tcp_connections := 3; clients := {[5]} |}
       [Accepted 7 true]).1 7
  = {| tcp_connections := 3; clients := {[5]} |}.
Proof.
  apply (accept_then_close {| tcp_connections := 3; clients := {[5]} |} 7).
  - unfold is_int, INT_MAX. cbn. lia.
  - cbn. rewrite elem_of_singleton. discriminate.
Defined.

(** A client that has only half-closed (no error or hangup flag in the
    event) is read before it is closed: with its writes accepted,
    everything pending is echoed, then the end of file closes it; with an
    error or hangup flag it is closed unread and nothing is echoed. *)
Theorem client_event_echo_before_close (r : Reactor) (events client_fd : Z)
    (wr : nat → write_result) (rx : list byte) (e : read_end) :
  (Z.land events (Z.lor EPOLLERR EPOLLHUP) = 0 →
   writes_accepted wr →
   handle_client_event r events client_fd wr rx ReadEof
   = (close_client r client_fd, rx))
  ∧ (Z.land events (Z.lor EPOLLERR EPOLLHUP) ≠ 0 →
     handle_client_event r events client_fd wr rx e
     = (close_client r client_fd, [])).
Proof.
  unfold handle_client_event. split.
  - intros -> Hwr. cbn [Z.eqb]. unfold handle_tcp_client.
    by rewrite read_loop_accepted.
  - intros Hne. apply Z.eqb_neq in Hne. by rewrite Hne.
Qed.

Lemma client_event_echo_before_close_witness :
  handle_client_event {| tcp_connections := 1; clients := {[7]} |}
    (Z.lor EPOLLIN EPOLLRDHUP) 7 (λ _, Written 1) [x41; x42] ReadEof
  = ({| tcp_connections := 0; clients := ∅ |}, [x41; x42])
  ∧ handle_client_event {| tcp_connections := 1; clients := {[7]} |}
      (Z.lor EPOLLIN EPOLLHUP) 7 (λ _, Written 1) [x41; x42] ReadEof
    = ({| tcp_connections := 0; clients := ∅ |}, []).
Proof.
  destruct (client_event_echo_before_close
              {| tcp_connections := 1; clients := {[7]} |}
              (Z.lor EPOLLIN EPOLLRDHUP) 7 (λ _, Written 1) [x41; x42] ReadEof)
    as [Hread _].
  destruct (client_event_echo_before_close
              {| tcp_connections := 1; clients := {[7]} |}
              (Z.lor EPOLLIN EPOLLHUP) 7 (λ _, Written 1) [x41; x42] ReadEof)
    as [_ Hhup].
  split.
  - rewrite Hread; [|reflexivity|intros i; by exists 1%positive].
    unfold close_client. cbn [tcp_connections clients].
    by rewrite difference_diag_L.
  - rewrite Hhup by discriminate.
    unfold close_client. cbn [tcp_connections clients].
    by rewrite difference_diag_L.
Defined.

End ReactorFacts.

Section StartupFacts.
Import Machine Server.

Lemma setup_tcp_socket_eq (c : setup_calls) :
  setup_tcp_socket c = (socket_result c, setup_ok true c).
Proof.
  unfold setup_tcp_socket, setup_ok.
  destruct (socket_result c =? -1), (bind_ok c), (listen_ok c), (epoll_ctl_ok c);
    reflexivity.
Qed.

Lemma setup_udp_socket_eq (c : setup_calls) :
  setup_udp_socket c = (socket_result c, setup_ok false c).
Proof.
  unfold setup_udp_socket, setup_ok.
  destruct (socket_result c =? -1), (bind_ok c), (epoll_ctl_ok c); reflexivity.
Qed.

Lemma setup_quic_socket_eq (c : setup_calls) :
  setup_quic_socket c = (socket_result c, setup_ok false c).
Proof.
  unfold setup_quic_socket, setup_ok.
  destruct (socket_result c =? -1), (bind_ok c), (epoll_ctl_ok c); reflexivity.
Qed.

Lemma setup_ok_succeeds (listens : bool) (c : setup_calls) :
  setup_ok listens c = true ↔ setup_succeeds listens c.
Proof.
  unfold setup_ok, setup_succeeds.
  destruct (Z.eqb_spec (socket_result c) (-1)) as [E|E], (bind_ok c),
    listens, (listen_ok c), (epoll_ctl_ok c); cbn; split;
    try discriminate; try tauto;
    try (intros (H1 & H2 & H3 & H4); first [discriminate | done | by specialize (H3 eq_refl)]).
Qed.

(** [cleanup] closes the sockets in the order stream, datagram,
    pseudo-QUIC, then the epoll instance, which was created first. *)
Ltac closes_opened :=
  repeat match goal with
    | H : ?x ≠ -1 |- context [?x =? -1] =>
        rewrite (proj2 (Z.eqb_neq x (-1)) H)
    | |- context [?x =? -1] => destruct (Z.eqb_spec x (-1))
    end;
  cbn [app];
  match goal with
  | |- Permutation [] [] => reflexivity
  | |- Permutation ?l (?c :: ?t) =>
      change (Permutation (t ++ [c]) ([c] ++ t)); apply Permutation_app_comm
  end.

(** Startup succeeds exactly when every step does, and then the four
    descriptor members hold what the system handed out.  Whether it
    succeeds or fails at any step, [cleanup] closes every descriptor that
    was handed out on the way, and nothing else: a failed startup leaks no
    descriptor. *)
Theorem startup_closes_what_it_opened (c : startup_calls) :
  let d := (initialize c).1.1 in
  let ok := (initialize c).1.2 in
  let opened := (initialize c).2 in
  Permutation (cleanup d) opened
  ∧ (ok = true ↔
       epoll_create1_result c ≠ -1
       ∧ setup_succeeds true (tcp_calls c)
       ∧ setup_succeeds false (udp_calls c)
       ∧ setup_succeeds false (quic_calls c))
  ∧ (ok = true →
       d = {| epoll_fd := epoll_create1_result c;
              tcp_fd := socket_result (tcp_calls c);
              udp_fd := socket_result (udp_calls c);
              quic_fd := socket_result (quic_calls c) |}).
Proof.
  cbn zeta. unfold initialize.
  rewrite setup_tcp_socket_eq, setup_udp_socket_eq, setup_quic_socket_eq.
  rewrite <- !setup_ok_succeeds.
  set (created := epoll_create1_result c).
  set (ts := socket_result (tcp_calls c)).
  set (us := socket_result (udp_calls c)).
  set (qs := socket_result (quic_calls c)).
  assert (Hts : setup_ok true (tcp_calls c) = true → ts ≠ -1).
  { unfold setup_ok. fold ts. destruct (Z.eqb_spec ts (-1)); [discriminate | done]. }
  assert (Hus : setup_ok false (udp_calls c) = true → us ≠ -1).
  { unfold setup_ok. fold us. destruct (Z.eqb_spec us (-1)); [discriminate | done]. }
  assert (Hqs : setup_ok false (quic_calls c) = true → qs ≠ -1).
  { unfold setup_ok. fold qs. destruct (Z.eqb_spec qs (-1)); [discriminate | done]. }
  unfold cleanup, descriptors_new.
  destruct (Z.eqb_spec created (-1)) as [Hc|Hc].
  { cbn [fst snd epoll_fd tcp_fd udp_fd quic_fd]. rewrite Hc.
    split; [reflexivity|]. split; [|discriminate]. split; [discriminate|tauto]. }
  destruct (setup_ok true (tcp_calls c)) eqn:Et; cbn [negb].
  2:{ cbn [fst snd epoll_fd tcp_fd udp_fd quic_fd]. change (-1 =? -1) with true.
      split; [closes_opened|]. split; [|discriminate].
      split; [discriminate|]. intros (_ & H & _). discriminate H. }
  specialize (Hts eq_refl).
  destruct (setup_ok false (udp_calls c)) eqn:Eu; cbn [negb].
  2:{ cbn [fst snd epoll_fd tcp_fd udp_fd quic_fd]. change (-1 =? -1) with true.
      split; [closes_opened|]. split; [|discriminate].
      split; [discriminate|]. intros (_ & _ & H & _). discriminate H. }
  specialize (Hus eq_refl).
  cbn [fst snd epoll_fd tcp_fd udp_fd quic_fd].
  split; [closes_opened|]. split.
  - destruct (setup_ok false (quic_calls c)); tauto.
  - reflexivity.
Qed.

Lemma startup_closes_what_it_opened_witness :
  Permutation
    (cleanup
       (initialize
          {| epoll_create1_result := 3;
             tcp_calls := {| socket_result := 4; bind_ok := true;
                             listen_ok := true; epoll_ctl_ok := true |};
             udp_calls := {| socket_result := 5; bind_ok := false;
                             listen_ok := false; epoll_ctl_ok := false |};
             quic_calls := {| socket_result := 6; bind_ok := true;
                              listen_ok := false; epoll_ctl_ok := true |} |}).1.1)
    [3; 4; 5]
  ∧ (initialize
       {| epoll_create1_result := 3;
          tcp_calls := {| socket_result := 4; bind_ok := true;
                          listen_ok := true; epoll_ctl_ok := true |};
          udp_calls := {| socket_result := 5; bind_ok := true;
                          listen_ok := false; epoll_ctl_ok := true |};
          quic_calls := {| socket_result := 6; bind_ok := true;
                           listen_ok := false; epoll_ctl_ok := true |} |}).1.1
    = {| epoll_fd := 3; tcp_fd := 4; udp_fd := 5; quic_fd := 6 |}.
Proof.
  split.
  - apply (startup_closes_what_it_opened
             {| epoll_create1_result := 3;
                tcp_calls := {| socket_result := 4; bind_ok := true;
                                listen_ok := true; epoll_ctl_ok := true |};
                udp_calls := {| socket_result := 5; bind_ok := false;
                                listen_ok := false; epoll_ctl_ok := false |};
                quic_calls := {| socket_result := 6; bind_ok := true;
                                 listen_ok := false; epoll_ctl_ok := true |} |}).
  - apply (startup_closes_what_it_opened
             {| epoll_create1_result := 3;
                tcp_calls := {| socket_result := 4; bind_ok := true;
                                listen_ok := true; epoll_ctl_ok := true |};
                udp_calls := {| socket_result := 5; bind_ok := true;
                                listen_ok := false; epoll_ctl_ok := true |};
                quic_calls := {| socket_result := 6; bind_ok := true;
                                 listen_ok := false; epoll_ctl_ok := true |} |}).
    reflexivity.
Defined.

End StartupFacts.

(* ================================================================== *)
(** * Runs of the datagram handlers                                    *)
(* ================================================================== *)

Section QuicRuns.
Import Machine Server.

(** The response to a datagram of 4 to 1013 bytes, on either host: it
    goes to the sender, is 11 bytes longer than the datagram, and is made
    of the id bytes in host layout, the marker, and the payload, whole
    and unchanged; no cell of the array that was never written is sent. *)
Theorem quic_reply_layout (o : byte_order) (srv : EpollServer)
    (buffer : list cell) (a : arrival) :
  (4 <= length (arr_data a) <= 1013)%nat →
  ∃ srv' buffer' r bytes,
    quic_step o srv buffer a = (srv', buffer', Some r)
    ∧ reply_to r = arr_from a
    ∧ sendto_bytes r = Some bytes
    ∧ length bytes = (length (arr_data a) + 11)%nat
    ∧ take 4 bytes = host_id_bytes o (arr_data a)
    ∧ take 11 (drop 4 bytes) = marker_bytes
    ∧ drop 15 bytes = drop 4 (arr_data a).
Proof.
  intros Hlen.
  destruct (quic_reply_long o srv buffer a Hlen)
    as (buffer' & r & Hstep & Hto & _ & Hwire).
  eexists _, buffer', r, _. split; [exact Hstep|]. split; [exact Hto|].
  split; [exact Hwire|].
  assert (Hid : length (host_id_bytes o (arr_data a)) = 4%nat).
  { destruct o; cbn [host_id_bytes]; rewrite ?length_reverse, length_take; lia. }
  assert (Hm : length marker_bytes = 11%nat) by reflexivity.
  split; [|split; [|split]].
  - rewrite !length_app, Hid, Hm, length_drop. lia.
  - by rewrite take_app_length'.
  - rewrite drop_app_length' by done. by rewrite take_app_length'.
  - rewrite app_assoc. rewrite drop_app_length'; [reflexivity|].
    rewrite length_app. lia.
Qed.

Lemma quic_reply_layout_witness :
  ∃ srv' buffer' r bytes,
    quic_step BigEndian EpollServer_new (uninitialised BUFFER_SIZE) datagram_7_hi
    = (srv', buffer', Some r)
    ∧ sendto_bytes r = Some bytes
    ∧ drop 15 bytes = [x68; x69].
Proof.
  destruct (quic_reply_layout BigEndian EpollServer_new
              (uninitialised BUFFER_SIZE) datagram_7_hi)
    as (srv' & buffer' & r & bytes & H1 & _ & H3 & _ & _ & _ & H7).
  - cbn. lia.
  - exists srv', buffer', r, bytes. repeat split; assumption.
Defined.

(** A datagram of 1014 bytes or more, on either host: at most 1023 bytes
    are received, the length handed to [sendto] is 11 more than that and
    larger than the response array, so the call reads past its end. *)
Theorem quic_reply_past_the_array (o : byte_order) (srv : EpollServer)
    (buffer : list cell) (a : arrival) :
  (1014 <= length (arr_data a))%nat →
  ∃ srv' buffer' r,
    quic_step o srv buffer a = (srv', buffer', Some r)
    ∧ response_size r = Z.of_nat (length (arr_data a) `min` 1023) + 11
    ∧ Z.of_nat (length (response r)) < response_size r
    ∧ sendto_bytes r = None.
Proof.
  intros Hlen.
  pose proof (quic_step_unfold o srv buffer a) as Hstep. cbn zeta in Hstep.
  set (got := take (Z.to_nat (BUFFER_SIZE - 1)) (arr_data a)) in *.
  assert (Hgot : length got = (length (arr_data a) `min` 1023)%nat).
  { subst got. rewrite length_take. unfold BUFFER_SIZE. lia. }
  rewrite Hstep by (intros E; rewrite E in Hgot; cbn in Hgot; lia).
  eexists _, _, _. split; [reflexivity|]. cbn [response_size response].
  destruct (quic_overrun o buffer got
              (quic_connection_id o (received buffer got) (Z.of_nat (length got))))
    as [Hbig Hnone]; [lia|].
  rewrite quic_response_size_eq in * by lia.
  split; [by rewrite Hgot|]. split; [|exact Hnone].
  rewrite quic_response_shape.
  rewrite !length_app, uint32_bytes_length, length_take, length_replicate.
  pose proof (copied_le (Z.of_nat (length got))).
  change (length quic_marker) with 11%nat. lia.
Qed.

Lemma quic_reply_past_the_array_witness :
  ∃ srv' buffer' r,
    quic_step LittleEndian EpollServer_new (uninitialised BUFFER_SIZE) datagram_1020
    = (srv', buffer', Some r)
    ∧ response_size r = 1031
    ∧ sendto_bytes r = None.
Proof.
  destruct (quic_reply_past_the_array LittleEndian EpollServer_new
              (uninitialised BUFFER_SIZE) datagram_1020)
    as (srv' & buffer' & r & H1 & H2 & _ & H4).
  - unfold datagram_1020. cbn [arr_data]. rewrite length_replicate. lia.
  - exists srv', buffer', r. split; [exact H1|]. split; [|exact H4].
    rewrite H2. unfold datagram_1020. cbn [arr_data].
    rewrite length_replicate. reflexivity.
Defined.





Lemma quic_track_never_established (srv : EpollServer) (id : Z)
    (addr : sockaddr_in) (now : time_point) :
  never_established srv → never_established (quic_track srv id addr now).
Proof.
  intros Hne k c. unfold quic_track.
  destruct (quic_connections_map srv !! id) as [c0|] eqn:Hid;
    cbn [quic_connections_map]; destruct (decide (k = id)) as [->|Hk].
  - rewrite lookup_insert_eq. intros [= <-]. cbn. by apply (Hne id).
  - rewrite lookup_insert_ne by done. apply Hne.
  - rewrite lookup_insert_eq. by intros [= <-].
  - rewrite lookup_insert_ne by done. apply Hne.
Qed.

Lemma quic_track_udp_packets (srv : EpollServer) (id : Z)
    (addr : sockaddr_in) (now : time_point) :
  udp_packets (quic_track srv id addr now) = udp_packets srv.
Proof. unfold quic_track. by destruct (quic_connections_map srv !! id). Qed.

Lemma quic_track_dom (srv : EpollServer) (id : Z)
    (addr : sockaddr_in) (now : time_point) :
  dom (quic_connections_map (quic_track srv id addr now))
  = {[id]} ∪ dom (quic_connections_map srv).
Proof.
  unfold quic_track.
  destruct (quic_connections_map srv !! id); cbn [quic_connections_map];
    apply dom_insert_L.
Qed.

(** What a drain loop keeps, for any property the tracking step keeps. *)
Lemma quic_drain_keeps (Q : EpollServer → Prop) (o : byte_order) :
  (∀ srv id addr now, Q srv → Q (quic_track srv id addr now)) →
  ∀ queue srv buffer, Q srv → Q (quic_drain o srv buffer queue).1.
Proof.
  intros Htrack. induction queue as [|[a|] queue IH]; intros srv buffer HQ;
    cbn [quic_drain fst]; try done.
  pose proof (quic_step_server o srv buffer a) as Hsrv.
  destruct (quic_step o srv buffer a) as [[srv1 buffer1] r]. cbn [fst] in Hsrv.
  specialize (IH srv1 buffer1).
  destruct (quic_drain o srv1 buffer1 queue) as [srv2 rs]. cbn [fst] in *.
  apply IH. rewrite Hsrv. destruct (arr_data a); [exact HQ | by apply Htrack].
Qed.

(** Over the whole life of the server, whatever arrives on the
    pseudo-QUIC port: every record is stored under its own id and none is
    ever marked established, the connection counter is the number of
    records (as a wrapping [int]), and the plain-datagram counter is not
    touched. *)
Theorem quic_lifetime_invariant (o : byte_order) (queues : list (list recv_event)) :
  let srv := quic_lifetime o EpollServer_new queues in
  table_ok srv ∧ never_established srv ∧ udp_packets srv = 0.
Proof.
  cbn zeta. unfold quic_lifetime.
  assert (Hgen : ∀ srv,
            table_ok srv ∧ never_established srv ∧ udp_packets srv = 0 →
            let srv' := foldl (λ srv queue, (handle_quic_connection o srv queue).1)
                          srv queues in
            table_ok srv' ∧ never_established srv' ∧ udp_packets srv' = 0).
  { induction queues as [|queue queues IH]; intros srv Hinv; [exact Hinv|].
    cbn [foldl]. apply IH. unfold handle_quic_connection.
    apply (quic_drain_keeps
             (λ s, table_ok s ∧ never_established s ∧ udp_packets s = 0)); [|exact Hinv].
    intros s id addr now (H1 & H2 & H3). split; [by apply quic_track_ok|].
    split; [by apply quic_track_never_established|].
    by rewrite quic_track_udp_packets. }
  apply Hgen. split; [apply table_ok_new|]. split; [|reflexivity].
  intros k c. cbn. rewrite lookup_empty. discriminate.
Qed.

(** After a run of the handler the table holds the ids it held before
    and the ids of the non-empty datagrams the run received (0 for those
    shorter than four bytes), and no others. *)
Theorem quic_drain_ids (o : byte_order) (queue : list recv_event)
    (srv : EpollServer) (buffer : list cell) :
  dom (quic_connections_map (quic_drain o srv buffer queue).1)
  = dom (quic_connections_map srv)
      ∪ list_to_set
          ((λ a, datagram_id (arr_data a))
             <$> List.filter (λ a, nonempty (arr_data a)) (arrivals_handled queue)).
Proof.
  revert srv buffer. induction queue as [|[a|] queue IH]; intros srv buffer;
    cbn [quic_drain fst arrivals_handled List.filter fmap list_fmap list_to_set].
  - by rewrite union_empty_r_L.
  - pose proof (quic_step_server o srv buffer a) as Hsrv.
    destruct (quic_step o srv buffer a) as [[srv1 buffer1] r]. cbn [fst] in Hsrv.
    specialize (IH srv1 buffer1).
    destruct (quic_drain o srv1 buffer1 queue) as [srv2 rs]. cbn [fst] in *.
    rewrite IH, Hsrv.
    destruct (arr_data a) as [|b data] eqn:Hdata; cbn [nonempty]; [reflexivity|].
    rewrite quic_track_dom. cbn [fmap list_fmap]. rewrite list_to_set_cons, Hdata.
    apply set_eq. intros x. rewrite !elem_of_union. tauto.
  - by rewrite union_empty_r_L.
Qed.

Lemma quic_step_reply (o : byte_order) (srv : EpollServer)
    (buffer : list cell) (a : arrival) :
  (λ r, (reply_to r, response_size r)) <$> (quic_step o srv buffer a).2
  = if nonempty (arr_data a)
    then Some (arr_from a, Z.of_nat (length (arr_data a) `min` 1023) + 11)
    else None.
Proof.
  destruct (arr_data a) as [|b data] eqn:Hdata; cbn [nonempty].
  - unfold quic_step, recvfrom. rewrite Hdata. reflexivity.
  - rewrite quic_step_unfold.
    + cbn [snd fmap option_fmap option_map reply_to response_size].
      rewrite quic_response_size_eq.
      * rewrite length_take, Hdata. unfold BUFFER_SIZE. do 3 f_equal. lia.
      * rewrite length_take. unfold BUFFER_SIZE. lia.
    + rewrite Hdata. discriminate.
Qed.

(** A run of the handler answers every non-empty datagram it receives
    before [recvfrom] fails, once each and in order of arrival: each
    response goes to the sender of its datagram with a length of 11 more
    than the bytes received (at most 1023); empty datagrams get no
    response. *)
Theorem quic_drain_replies (o : byte_order) (queue : list recv_event)
    (srv : EpollServer) (buffer : list cell) :
  (λ r, (reply_to r, response_size r)) <$> (quic_drain o srv buffer queue).2
  = (λ a, (arr_from a, Z.of_nat (length (arr_data a) `min` 1023) + 11))
      <$> List.filter (λ a, nonempty (arr_data a)) (arrivals_handled queue).
Proof.
  revert srv buffer. induction queue as [|[a|] queue IH]; intros srv buffer;
    cbn [quic_drain snd arrivals_handled List.filter]; try reflexivity.
  pose proof (quic_step_reply o srv buffer a) as Hr.
  destruct (quic_step o srv buffer a) as [[srv1 buffer1] r]. cbn [snd] in Hr.
  specialize (IH srv1 buffer1).
  destruct (quic_drain o srv1 buffer1 queue) as [srv2 rs]. cbn [snd] in *.
  rewrite fmap_app, IH.
  destruct (nonempty (arr_data a)), r as [r|]; try discriminate; cbn in *.
  - injection Hr as -> ->. reflexivity.
  - reflexivity.
Qed.

End QuicRuns.

Section EchoRuns.
Import Machine Server.

Lemma udp_step_eq (srv : EpollServer) (buffer : list cell) (a : udp_arrival) :
  let got := take (Z.to_nat BUFFER_SIZE) (udp_data a) in
  udp_step srv buffer a
  = if nonempty (udp_data a) && udp_send_ok a then
      ({| udp_packets := int32 (udp_packets srv + 1);
          quic_connections := quic_connections srv;
          quic_connections_map := quic_connections_map srv |},
       (Some <$> got) ++ drop (length got) buffer,
       Some {| dg_to := udp_from a; dg_bytes := Some got |})
    else (srv, (Some <$> got) ++ drop (length got) buffer, None).
Proof.
  intros got. unfold udp_step, recvfrom. fold got.
  destruct (udp_data a) as [|b data] eqn:Hdata; cbn [nonempty andb].
  - subst got. rewrite ?Hdata. reflexivity.
  - assert (Hgot : (1 <= length got)%nat).
    { subst got. rewrite length_take, ?Hdata. cbn [length]. unfold BUFFER_SIZE. lia. }
    assert ((0 <? Z.of_nat (length got)) = true) as -> by (apply Z.ltb_lt; lia).
    destruct (udp_send_ok a); [|reflexivity].
    do 3 f_equal. unfold wire_bytes.
    rewrite length_app, length_fmap, Nat2Z.id.
    assert (((0 <=? Z.of_nat (length got))
             && (Z.of_nat (length got)
                 <=? Z.of_nat (length got + length (drop (length got) buffer))))
            = true) as ->.
    { apply andb_true_iff; split; apply Z.leb_le; lia. }
    rewrite take_app_length' by (by rewrite length_fmap).
    apply mapM_id_Some.
Qed.

(** The datagrams of a queue the plain-datagram handler echoes: those
    received before [recvfrom] fails that are not empty and whose
    [sendto] succeeds. *)
Lemma udp_drain_eq (queue : list udp_event) :
  ∀ srv buffer,
    let echoed :=
      List.filter (λ a, nonempty (udp_data a) && udp_send_ok a)
        (udp_arrivals_handled queue) in
    udp_drain srv buffer queue
    = ({| udp_packets :=
            if echoed is [] then udp_packets srv
            else int32 (udp_packets srv + Z.of_nat (length echoed));
          quic_connections := quic_connections srv;
          quic_connections_map := quic_connections_map srv |},
       (λ a, {| dg_to := udp_from a;
                dg_bytes := Some (take (Z.to_nat BUFFER_SIZE) (udp_data a)) |})
         <$> echoed).
Proof.
  induction queue as [|[a|] queue IH]; intros srv buffer; cbn zeta;
    cbn [udp_drain udp_arrivals_handled List.filter].
  - by destruct srv.
  - rewrite udp_step_eq.
    destruct (nonempty (udp_data a) && udp_send_ok a); rewrite IH; cbn zeta;
      cbn [udp_packets quic_connections quic_connections_map option_list app
           fmap list_fmap length]; [|reflexivity].
    f_equal. f_equal.
    destruct (List.filter _ (udp_arrivals_handled queue)) as [|a' l].
    + reflexivity.
    + rewrite int32_add_l. f_equal. cbn [length]. lia.
  - by destruct srv.
Qed.

(** A run of the plain-datagram handler echoes every non-empty datagram
    it receives before [recvfrom] fails and whose [sendto] succeeds, once
    each and in order of arrival, to its sender, cut to the first 1024
    bytes when it is longer; the packet counter grows by the number of
    echoes, and the pseudo-QUIC table and counter are left alone. *)
Theorem udp_drain_echoes (srv : EpollServer) (queue : list udp_event) :
  is_int (udp_packets srv) →
  let echoed :=
    List.filter (λ a, nonempty (udp_data a) && udp_send_ok a)
      (udp_arrivals_handled queue) in
  let srv' := (handle_udp_packet srv queue).1 in
  (handle_udp_packet srv queue).2
  = (λ a, {| dg_to := udp_from a;
             dg_bytes := Some (take (Z.to_nat BUFFER_SIZE) (udp_data a)) |})
      <$> echoed
  ∧ udp_packets srv' = int32 (udp_packets srv + Z.of_nat (length echoed))
  ∧ quic_connections srv' = quic_connections srv
  ∧ quic_connections_map srv' = quic_connections_map srv.
Proof.
  intros Hint. cbn zeta. unfold handle_udp_packet. rewrite udp_drain_eq.
  cbn [fst snd udp_packets quic_connections quic_connections_map].
  split; [reflexivity|]. split; [|split; reflexivity].
  destruct (List.filter _ _); [|reflexivity].
  cbn [length]. rewrite Z.add_0_r. symmetry. by apply int32_of_int.
Qed.

Lemma udp_drain_echoes_witness :
  (handle_udp_packet EpollServer_new
     [UdpArrives {| udp_from := {| sin_addr := 2130706433; sin_port := 40000 |};
                    udp_data := [x41; x42]; udp_send_ok := true |};
      UdpArrives {| udp_from := {| sin_addr := 2130706433; sin_port := 40001 |};
                    udp_data := []; udp_send_ok := true |};
      UdpArrives {| udp_from := {| sin_addr := 2130706433; sin_port := 40002 |};
                    udp_data := [x43]; udp_send_ok := false |}]).2
  = [{| dg_to := {| sin_addr := 2130706433; sin_port := 40000 |};
        dg_bytes := Some [x41; x42] |}].
Proof.
  destruct (udp_drain_echoes EpollServer_new
     [UdpArrives {| udp_from := {| sin_addr := 2130706433; sin_port := 40000 |};
                    udp_data := [x41; x42]; udp_send_ok := true |};
      UdpArrives {| udp_from := {| sin_addr := 2130706433; sin_port := 40001 |};
                    udp_data := []; udp_send_ok := true |};
      UdpArrives {| udp_from := {| sin_addr := 2130706433; sin_port := 40002 |};
                    udp_data := [x43]; udp_send_ok := false |}])
    as (H & _).
  - unfold is_int, INT_MAX. cbn. lia.
  - exact H.
Defined.

(** ** The stream handler under any behaviour of [write] *)

Lemma echo_loop_prefix (wr : nat → write_result) (fuel : nat) :
  ∀ calls pending, (echo_loop fuel wr calls pending).2 `prefix_of` pending.
Proof.
  induction fuel as [|fuel IH]; intros calls pending.
  - destruct pending; cbn; apply prefix_nil.
  - destruct pending as [|b pending]; [cbn; apply prefix_nil|].
    cbn [echo_loop]. destruct (wr calls) as [k| | |]; try (cbn; apply prefix_nil).
    set (bytes_written := Nat.min (Pos.to_nat k) (length (b :: pending))).
    specialize (IH (S calls) (drop bytes_written (b :: pending))).
    destruct (echo_loop fuel wr (S calls) (drop bytes_written (b :: pending)))
      as [[e calls'] out]. cbn [snd] in *.
    rewrite <- (take_drop bytes_written (b :: pending)) at 2.
    by apply prefix_app.
Qed.

Lemma prefix_is_sublist (l k : list byte) : l `prefix_of` k → l `sublist_of` k.
Proof. intros [t ->]. by apply sublist_inserts_r. Qed.

Lemma read_loop_sublist (wr : nat → write_result) (e : read_end) (fuel : nat) :
  ∀ calls rx, (read_loop fuel wr calls rx e).2 `sublist_of` rx.
Proof.
  induction fuel as [|fuel IH]; intros calls rx.
  - destruct rx, e; cbn; apply sublist_nil_l.
  - destruct rx as [|b rx]; [destruct e; cbn; apply sublist_nil_l|].
    cbn [read_loop].
    pose proof (echo_loop_prefix wr (length (take (Z.to_nat BUFFER_SIZE) (b :: rx)))
                  calls (take (Z.to_nat BUFFER_SIZE) (b :: rx))) as Hp.
    unfold echo_chunk.
    destruct (echo_loop _ wr calls (take (Z.to_nat BUFFER_SIZE) (b :: rx)))
      as [[en calls'] out]. cbn [snd] in Hp.
    apply prefix_is_sublist in Hp.
    specialize (IH calls' (drop (Z.to_nat BUFFER_SIZE) (b :: rx))).
    destruct (read_loop fuel wr calls' (drop (Z.to_nat BUFFER_SIZE) (b :: rx)) e)
      as [st out']. cbn [snd] in IH.
    destruct en; cbn [snd];
      rewrite <- (take_drop (Z.to_nat BUFFER_SIZE) (b :: rx)).
    + by apply sublist_app.
    + by apply sublist_app.
    + by apply sublist_inserts_r.
Qed.

(** Whatever [write] does, the stream handler writes back nothing but
    bytes it has read, in the order it read them and each at most once:
    the output is the input with some bytes left out, and of each chunk
    read it is a beginning of the chunk. *)
Theorem tcp_echo_sublist (wr : nat → write_result) (rx : list byte)
    (e : read_end) (calls : nat) (chunk : list byte) :
  (handle_tcp_client wr rx e).2 `sublist_of` rx
  ∧ (echo_chunk wr calls chunk).2 `prefix_of` chunk.
Proof.
  split.
  - unfold handle_tcp_client. apply read_loop_sublist.
  - unfold echo_chunk. apply echo_loop_prefix.
Qed.

Lemma echo_loop_not_closed (wr : nat → write_result) (fuel : nat) :
  (∀ i, wr i ≠ WriteBrokenPipe ∧ wr i ≠ WriteError) →
  ∀ calls pending, (echo_loop fuel wr calls pending).1.1 ≠ EchoClosed.
Proof.
  intros Hwr. induction fuel as [|fuel IH]; intros calls pending.
  - by destruct pending.
  - destruct pending as [|b pending]; [done|].
    cbn [echo_loop]. destruct (Hwr calls) as [H1 H2].
    destruct (wr calls) as [k| | |]; try done.
    specialize (IH (S calls)
                  (drop (Nat.min (Pos.to_nat k) (length (b :: pending))) (b :: pending))).
    by destruct (echo_loop fuel wr (S calls) _) as [[en calls'] out].
Qed.

Lemma read_loop_state (wr : nat → write_result) (e : read_end) (fuel : nat) :
  (∀ i, wr i ≠ WriteBrokenPipe ∧ wr i ≠ WriteError) →
  ∀ calls rx,
    (read_loop fuel wr calls rx e).1
    = match e with ReadWouldBlock => ClientOpen | _ => ClientClosed end.
Proof.
  intros Hwr. induction fuel as [|fuel IH]; intros calls rx.
  - by destruct rx, e.
  - destruct rx as [|b rx]; [by destruct e|].
    cbn [read_loop]. unfold echo_chunk.
    pose proof (echo_loop_not_closed wr
                  (length (take (Z.to_nat BUFFER_SIZE) (b :: rx))) Hwr calls
                  (take (Z.to_nat BUFFER_SIZE) (b :: rx))) as Hne.
    destruct (echo_loop _ wr calls (take (Z.to_nat BUFFER_SIZE) (b :: rx)))
      as [[en calls'] out]. cbn [fst] in Hne.
    specialize (IH calls' (drop (Z.to_nat BUFFER_SIZE) (b :: rx))).
    destruct (read_loop fuel wr calls' (drop (Z.to_nat BUFFER_SIZE) (b :: rx)) e)
      as [st out']. cbn [fst] in IH.
    by destruct en.
Qed.

(** The stream handler closes a client only for a reason: as long as no
    [write] fails with a broken pipe or another error, the client is
    closed exactly when the input ends with end of file or a read error,
    however many writes would block; and when the first [write] fails the
    client is closed at once and nothing is echoed. *)
Theorem tcp_close_condition (wr : nat → write_result) (rx : list byte)
    (e : read_end) :
  ((∀ i, wr i ≠ WriteBrokenPipe ∧ wr i ≠ WriteError) →
   (handle_tcp_client wr rx e).1
   = match e with ReadWouldBlock => ClientOpen | _ => ClientClosed end)
  ∧ (rx ≠ [] → wr O = WriteBrokenPipe ∨ wr O = WriteError →
     handle_tcp_client wr rx e = (ClientClosed, [])).
Proof.
  split.
  - intros Hwr. unfold handle_tcp_client. by apply read_loop_state.
  - intros Hrx Hfail. destruct rx as [|b rx]; [done|].
    unfold handle_tcp_client. cbn [length read_loop]. unfold echo_chunk.
    change (Z.to_nat BUFFER_SIZE) with 1024%nat.
    cbn [take length echo_loop].
    by destruct Hfail as [-> | ->].
Qed.

Lemma tcp_close_condition_witness :
  (handle_tcp_client one_byte_then_block [x41; x42] ReadEof).1 = ClientClosed
  ∧ handle_tcp_client (λ _, WriteBrokenPipe) [x41; x42] ReadWouldBlock
    = (ClientClosed, []).
Proof.
  destruct (tcp_close_condition one_byte_then_block [x41; x42] ReadEof) as [H1 _].
  destruct (tcp_close_condition (λ _, WriteBrokenPipe) [x41; x42] ReadWouldBlock)
    as [_ H2].
  split.
  - apply H1. intros [|i]; split; discriminate.
  - apply H2; [discriminate | by left].
Defined.

End EchoRuns.

(* ================================================================== *)
(** * The monitor, the ramp-up and the log of a run                    *)
(* ================================================================== *)

Section TrialFacts.
Import Machine Tester.

Lemma connection_monitor_bounds (samples : list Z) :
  ∀ peak,
    peak <= connection_monitor peak samples
    ∧ Forall (λ current, current <= connection_monitor peak samples) samples
    ∧ (connection_monitor peak samples = peak
       ∨ connection_monitor peak samples ∈ samples).
Proof.
  induction samples as [|current samples IH]; intros peak; cbn [connection_monitor foldl].
  - split; [lia|]. split; [constructor | by left].
  - fold (connection_monitor (if peak <? current then current else peak) samples).
    destruct (IH (if peak <? current then current else peak)) as (Hge & Hall & Hin).
    destruct (Z.ltb_spec peak current) as [Hlt|Hle].
    + split; [lia|]. split; [constructor; [lia | exact Hall]|].
      right. destruct Hin as [-> | Hin]; [left | by right].
    + split; [lia|]. split; [constructor; [lia | exact Hall]|].
      destruct Hin as [-> | Hin]; [by left | right; by right].
Qed.

(** The peak the monitor leaves is at least every value of the active
    connection count it sampled and at least the peak it started from,
    and it is one of those values: it is never a value nobody saw. *)
Theorem connection_monitor_peak (peak : Z) (samples : list Z) :
  peak <= connection_monitor peak samples
  ∧ (∀ current, current ∈ samples → current <= connection_monitor peak samples)
  ∧ (connection_monitor peak samples = peak
     ∨ connection_monitor peak samples ∈ samples).
Proof.
  destruct (connection_monitor_bounds samples peak) as (H1 & H2 & H3).
  split; [exact H1|]. split; [|exact H3].
  by apply Forall_forall.
Qed.

Lemma connection_monitor_peak_witness :
  5 <= connection_monitor 0 [3; 7; 5].
Proof.
  destruct (connection_monitor_peak 0 [3; 7; 5]) as (_ & H & _).
  apply H. do 2 right. left.
Defined.




(** A run of the tester writes one line per trial, eighteen in all: the
    nine client counts under "TCP", then the nine under "UDP", each line
    holding the result computed for the trial of that protocol and that
    count; so in a run the label of a line is the protocol that was
    tested.  With the log file closed nothing is written. *)
Theorem run_logs_every_trial (measure : string → Z → measurement) :
  run_scalability_tests measure true
  = (λ t, {| line_protocol := t.1;
             line_result := calculate_result t.2 (measure t.1 t.2) |})
      <$> trials
  ∧ length (run_scalability_tests measure true) = 18%nat
  ∧ run_scalability_tests measure false = [].
Proof.
  split; [|split].
  - rewrite run_scalability_tests_labels. reflexivity.
  - rewrite run_scalability_tests_labels. reflexivity.
  - unfold run_scalability_tests. by rewrite log_results_closed.
Qed.

End TrialFacts.

(* ================================================================== *)
(** * More on percentiles                                              *)
(* ================================================================== *)

Section PercentileMore.
Import Machine SpecFloat Tester.

(** The index the loop computes is inside the vector whatever the
    percentile and however large the vector: the last assignment brings
    it back even if the product wrapped. *)
Lemma percentile_index_inside (size p : Z) :
  1 <= size → 0 <= percentile_index size p < size.
Proof.
  intros Hsize. unfold percentile_index, size_t.
  assert (H0 : 0 <= (size * p) mod 2 ^ 64 / 100).
  { apply Z.div_pos; [|lia]. apply Z.mod_pos_bound. lia. }
  set (index := (size * p) mod 2 ^ 64 / 100) in *.
  assert (Hlast : 0 <= (size - 1) mod 2 ^ 64 < size).
  { pose proof (Z.mod_pos_bound (size - 1) (2 ^ 64)).
    pose proof (Z.mod_le (size - 1) (2 ^ 64)). lia. }
  destruct (0 <? index) eqn:E1; [apply Z.ltb_lt in E1 | apply Z.ltb_ge in E1].
  - destruct (size <=? index - 1) eqn:E2;
      [apply Z.leb_le in E2 | apply Z.leb_gt in E2]; lia.
  - destruct (size <=? index) eqn:E2;
      [apply Z.leb_le in E2 | apply Z.leb_gt in E2]; lia.
Qed.

(** Every percentile reported for a non-empty set of samples is one of
    the samples: nothing is interpolated, and no entry is read outside
    the sorted vector, whatever the number of samples. *)
Theorem percentiles_are_samples (data : list double) :
  data ≠ [] →
  Forall (λ x, x ∈ data) (calculate_all_percentiles data).
Proof.
  intros Hdata. destruct data as [|x0 data0] eqn:Hd; [done|]. rewrite <- Hd in *.
  assert (Hcalc : calculate_all_percentiles data
                  = (λ p, at_index (std_sort data)
                            (percentile_index (Z.of_nat (length (std_sort data))) p))
                      <$> seqZ 1 100) by (by rewrite Hd).
  rewrite Hcalc. apply Forall_fmap, Forall_forall. intros p _. cbn.
  set (i := percentile_index (Z.of_nat (length (std_sort data))) p).
  assert (Hin : at_index (std_sort data) i ∈ std_sort data).
  { eapply list_elem_of_lookup_2, at_index_in_range.
    apply percentile_index_inside.
    rewrite std_sort_length, Hd. cbn [length]. lia. }
  revert Hin. generalize (at_index (std_sort data) i). intros y Hy.
  by rewrite (std_sort_perm data) in Hy.
Qed.

Lemma percentiles_are_samples_witness :
  Forall (λ x, x ∈ three_samples) (calculate_all_percentiles three_samples).
Proof. apply percentiles_are_samples. discriminate. Defined.

(** ** The order of the samples does not matter *)

Lemma le_antisym (x y : double) :
  is_latency x = true → is_latency y = true → le x y → le y x → x = y.
Proof.
  unfold le, SFleb, SFcompare.
  change (Pos.compare_cont Eq) with Pos.compare.
  destruct x as [sx|sx| |sx mx ex], y as [sy|sy| |sy my ey];
    try discriminate;
    try (destruct sx; try discriminate); try (destruct sy; try discriminate);
    try reflexivity; intros _ _.
  all: destruct (Z.compare_spec ex ey); try discriminate;
    destruct (Z.compare_spec ey ex); try discriminate; try lia; subst.
  all: destruct (Pos.compare_spec mx my); try discriminate;
    destruct (Pos.compare_spec my mx); try discriminate; try lia; subst;
    reflexivity.
Qed.

Lemma is_latency_number (x : double) : is_latency x = true → is_number x = true.
Proof. by destruct x. Qed.

Lemma ascending_unique (l1 : list double) :
  ∀ l2, Forall (λ x, is_latency x = true) l1 →
    ascending l1 → ascending l2 → Permutation l1 l2 → l1 = l2.
Proof.
  induction l1 as [|x l1 IH]; intros l2 Hlat H1 H2 Hperm.
  - by apply Permutation_nil in Hperm.
  - destruct l2 as [|y l2]; [by apply Permutation_sym, Permutation_nil in Hperm|].
    apply Forall_cons in Hlat as [Hx Hlat].
    apply StronglySorted_inv in H1 as [H1 Hx1].
    apply StronglySorted_inv in H2 as [H2 Hy2].
    rewrite Forall_forall in Hx1, Hy2.
    assert (Hy : is_latency y = true).
    { assert (Hin : y ∈ x :: l1) by (rewrite Hperm; left).
      apply elem_of_cons in Hin as [-> | Hin]; [done|].
      rewrite Forall_forall in Hlat. by apply Hlat. }
    assert (Hxy : le x y).
    { assert (Hin : y ∈ x :: l1) by (rewrite Hperm; left).
      apply elem_of_cons in Hin as [-> | Hin];
        [by apply le_refl, is_latency_number | by apply Hx1]. }
    assert (Hyx : le y x).
    { assert (Hin : x ∈ y :: l2) by (rewrite <- Hperm; left).
      apply elem_of_cons in Hin as [-> | Hin];
        [by apply le_refl, is_latency_number | by apply Hy2]. }
    assert (x = y) as <- by (by apply le_antisym).
    f_equal. apply IH; try done. by eapply Permutation_cons_inv.
Qed.

(** The percentiles depend on which latencies were recorded and not on
    the order in which the workers recorded them. *)
Theorem percentiles_order_independent (data data' : list double) :
  Forall (λ x, is_latency x = true) data →
  Permutation data data' →
  calculate_all_percentiles data = calculate_all_percentiles data'.
Proof.
  intros Hlat Hperm.
  assert (Hsort : std_sort data = std_sort data').
  { apply ascending_unique.
    - by rewrite std_sort_perm.
    - apply std_sort_ascending. eapply Forall_impl; [exact Hlat|].
      intros x. apply is_latency_number.
    - apply std_sort_ascending. rewrite <- Hperm.
      eapply Forall_impl; [exact Hlat|]. intros x. apply is_latency_number.
    - by rewrite !std_sort_perm. }
  destruct data as [|x data], data' as [|x' data'].
  - reflexivity.
  - by apply Permutation_nil in Hperm.
  - by apply Permutation_sym, Permutation_nil in Hperm.
  - unfold calculate_all_percentiles. by rewrite Hsort.
Qed.

Lemma percentiles_order_independent_witness :
  calculate_all_percentiles three_samples
  = calculate_all_percentiles (reverse three_samples).
Proof.
  apply percentiles_order_independent.
  - repeat constructor.
  - apply Permutation_sym, reverse_Permutation.
Defined.

End PercentileMore.

Section PercentileRank.
Import Machine SpecFloat Tester.

Lemma filter_length_perm (f : double → bool) (l l' : list double) :
  Permutation l l' → length (List.filter f l) = length (List.filter f l').
Proof.
  induction 1 as [|x l l' _ IH|x y l|l l' l'' _ IH1 _ IH2]; cbn [List.filter].
  - reflexivity.
  - destruct (f x); cbn [length]; by rewrite IH.
  - by destruct (f x), (f y).
  - by rewrite IH1.
Qed.

Lemma filter_all (f : double → bool) (l : list double) :
  Forall (λ x, f x = true) l → List.filter f l = l.
Proof.
  induction 1 as [|x l Hx _ IH]; cbn [List.filter]; [reflexivity|].
  by rewrite Hx, IH.
Qed.

Lemma filter_length_part (f : double → bool) (l : list double) (i j : nat) :
  Forall (λ x, f x = true) (take j (drop i l)) →
  (length (take j (drop i l)) <= length (List.filter f l))%nat.
Proof.
  intros Hall.
  rewrite <- (take_drop i l) at 2. rewrite List.filter_app, length_app.
  rewrite <- (take_drop j (drop i l)) at 2. rewrite List.filter_app, length_app.
  rewrite (filter_all f (take j (drop i l))) by exact Hall. lia.
Qed.

Lemma nearest_rank_index_rank (n p : Z) :
  1 <= n → 1 <= p <= 100 →
  nearest_rank_index n p = Z.max 1 (n * p / 100) - 1.
Proof.
  intros Hn Hp. unfold nearest_rank_index. cbv zeta.
  assert (0 <= n * p / 100 <= n).
  { split; [apply Z.div_pos; nia|]. apply Z.div_le_upper_bound; nia. }
  destruct (Z.eqb_spec (n * p / 100) 0); lia.
Qed.

(** What a percentile guarantees.  With [n] samples and
    [k = floor(n * p / 100)], taken as 1 when it is 0, P-p is at least as
    large as [k] of the samples and at most as large as [n - k + 1] of
    them.  The rank is rounded down, so for 3 samples P50 is the
    smallest. *)
Theorem percentile_rank (data : list double) (p : Z) :
  data ≠ [] →
  Forall (λ x, is_number x = true) data →
  Z.of_nat (length data) * 100 < 2 ^ 64 →
  1 <= p <= 100 →
  let n := Z.of_nat (length data) in
  let k := Z.max 1 (n * p / 100) in
  let Pp := P (calculate_all_percentiles data) p in
  k <= count_le Pp data ∧ n - k + 1 <= count_ge Pp data.
Proof.
  intros Hdata Hnum Hfit Hp n k Pp.
  set (sorted := std_sort data).
  assert (Hperm : Permutation sorted data) by apply std_sort_perm.
  assert (Hlen : Z.of_nat (length sorted) = n)
    by (subst n sorted; by rewrite std_sort_length).
  assert (Hn : 1 <= n) by (subst n; destruct data; [done | cbn [length]; lia]).
  assert (Hsnum : Forall (λ x, is_number x = true) sorted) by (by rewrite Hperm).
  assert (Hasc : ascending sorted) by (by apply std_sort_ascending).
  assert (Hk : 1 <= k <= n).
  { subst k. assert (n * p / 100 <= n) by (apply Z.div_le_upper_bound; nia). lia. }
  assert (HP : sorted !! Z.to_nat (k - 1) = Some Pp).
  { subst Pp. rewrite calculate_all_percentiles_P by done. fold sorted.
    rewrite Hlen, percentile_index_nearest_rank by (subst n; lia).
    rewrite nearest_rank_index_rank by done. fold k.
    apply at_index_in_range. lia. }
  unfold count_le, count_ge.
  rewrite <- (filter_length_perm _ _ _ Hperm), <- (filter_length_perm _ _ _ Hperm).
  split.
  - pose proof (filter_length_part (λ x, SFleb x Pp) sorted 0 (Z.to_nat k)) as Hpart.
    rewrite drop_0, length_take in Hpart.
    assert (Hall : Forall (λ x, SFleb x Pp = true) (take (Z.to_nat k) sorted)).
    { apply Forall_forall. intros x Hx.
      apply list_elem_of_lookup_1 in Hx as [i Hi].
      apply lookup_take_Some in Hi as [Hi Hlt].
      eapply (ascending_lookup sorted Hsnum Hasc); [|exact Hi|exact HP]. lia. }
    specialize (Hpart Hall). unfold double in *. lia.
  - pose proof (filter_length_part (λ x, SFleb Pp x) sorted (Z.to_nat (k - 1))
                  (length sorted)) as Hpart.
    rewrite take_ge, length_drop in Hpart by (rewrite length_drop; lia).
    assert (Hall : Forall (λ x, SFleb Pp x = true) (drop (Z.to_nat (k - 1)) sorted)).
    { apply Forall_forall. intros x Hx.
      apply list_elem_of_lookup_1 in Hx as [i Hi].
      rewrite lookup_drop in Hi.
      eapply (ascending_lookup sorted Hsnum Hasc); [|exact HP|exact Hi]. lia. }
    specialize (Hpart Hall). unfold double in *. lia.
Qed.

Lemma percentile_rank_witness :
  1 <= count_le (P (calculate_all_percentiles three_samples) 50) three_samples
  ∧ 3 <= count_ge (P (calculate_all_percentiles three_samples) 50) three_samples.
Proof.
  destruct (percentile_rank three_samples 50) as [H1 H2].
  - discriminate.
  - repeat constructor.
  - cbn. lia.
  - lia.
  - cbn zeta in H1, H2. split; [exact H1 | exact H2].
Defined.

End PercentileRank.

(* ================================================================== *)
(** * Requests sent and replies recorded                               *)
(* ================================================================== *)

Section AccountingFacts.
Import Tester.

Lemma worker_step_accounted (proto : protocol) (stop ok : bool) (pc : worker_pc)
    (entered sent recorded : nat) :
  accounted proto pc entered sent recorded →
  let '(pc', a) := worker_step proto stop ok pc in
  accounted proto pc'
    (entered + tally Entered a) (sent + tally SendCalled a)
    (recorded + tally Recorded a).
Proof.
  unfold accounted.
  destruct proto, stop, ok, pc; cbn; intros (H1 & H2 & H3);
    (split; [|split]); try lia; try discriminate;
    intros _; specialize (H3 eq_refl); lia.
Qed.

Lemma count_action_tally (w w' : nat) (a a' : action) :
  count_action w a [Did w' a'] = if decide (w' = w) then tally a a' else 0%nat.
Proof.
  rewrite count_action_one.
  destruct (decide (w' = w)) as [Hw|Hw], (decide (w' = w ∧ a' = a)) as [Ha|Ha].
  - destruct Ha as [_ ->]. by destruct a.
  - destruct a, a'; try reflexivity; exfalso; apply Ha; by split.
  - tauto.
  - reflexivity.
Qed.

Lemma trial_step_accounted (proto : protocol) (t : trial) (c : choice) (w : nat)
    (entered sent recorded : nat) :
  accounted proto (pc_of t w) entered sent recorded →
  let '(t', es) := trial_step proto t c in
  accounted proto (pc_of t' w)
    (entered + count_action w Entered es)
    (sent + count_action w SendCalled es)
    (recorded + count_action w Recorded es).
Proof.
  intros Hacc. destruct c as [|w' ok]; cbn [trial_step].
  - rewrite !count_action_raised, !Nat.add_0_r. exact Hacc.
  - destruct (workers t !! w') as [pc|] eqn:Hpc.
    2:{ rewrite !count_action_nil, !Nat.add_0_r. exact Hacc. }
    pose proof (worker_step_accounted proto (stop_test t) ok pc
                  entered sent recorded) as Hstep.
    destruct (worker_step proto (stop_test t) ok pc) as [pc' a].
    rewrite !count_action_tally. unfold pc_of in *. cbn [workers].
    destruct (decide (w' = w)) as [->|Hne].
    + rewrite list_lookup_insert_eq by (by eapply lookup_lt_Some).
      rewrite Hpc in Hacc. cbn [default from_option id] in *. by apply Hstep.
    + rewrite list_lookup_insert_ne by done. by rewrite !Nat.add_0_r.
Qed.

Lemma trial_run_accounted (proto : protocol) (schedule : list choice) (w : nat) :
  ∀ t entered sent recorded,
    accounted proto (pc_of t w) entered sent recorded →
    let '(t', es) := trial_run proto t schedule in
    accounted proto (pc_of t' w)
      (entered + count_action w Entered es)
      (sent + count_action w SendCalled es)
      (recorded + count_action w Recorded es).
Proof.
  induction schedule as [|c schedule IH]; intros t entered sent recorded Hacc;
    cbn [trial_run].
  - rewrite !count_action_nil, !Nat.add_0_r. exact Hacc.
  - pose proof (trial_step_accounted proto t c w _ _ _ Hacc) as Hstep.
    destruct (trial_step proto t c) as [t' es].
    specialize (IH t' _ _ _ Hstep).
    destruct (trial_run proto t' schedule) as [t'' es'].
    rewrite !count_action_app, !Nat.add_assoc. exact IH.
Qed.

(** In any interleaving of a trial, for every worker: no reply is
    recorded without a request sent; every iteration begun sends its
    request, so at most one iteration is still to send; and a stream
    worker has at most one request without a recorded reply, since it
    leaves the loop at the first failure, while a datagram worker goes on
    and may lose any number.  The recorded replies are the latency
    samples, so the total-requests figure of a stream trial falls short
    of the requests sent by at most one per worker. *)
Theorem worker_requests_accounted (proto : protocol) (client_count : nat)
    (schedule : list choice) (w : nat) :
  let es := (trial_run proto (trial_init client_count) schedule).2 in
  (count_action w Recorded es <= count_action w SendCalled es)%nat
  ∧ (count_action w SendCalled es <= count_action w Entered es
     <= count_action w SendCalled es + 1)%nat
  ∧ (proto = Tcp →
     (count_action w SendCalled es <= count_action w Recorded es + 1)%nat).
Proof.
  cbn zeta.
  pose proof (trial_run_accounted proto schedule w (trial_init client_count)
                0 0 0) as Hrun.
  assert (Hinit : accounted proto (pc_of (trial_init client_count) w) 0 0 0).
  { unfold pc_of, trial_init. cbn [workers].
    destruct (replicate client_count Starting !! w) as [pc|] eqn:Hpc.
    - apply lookup_replicate in Hpc as [-> _]. cbn. repeat split; lia.
    - cbn. repeat split; lia. }
  specialize (Hrun Hinit).
  destruct (trial_run proto (trial_init client_count) schedule) as [t es].
  cbn [snd]. cbn [Nat.add] in Hrun. destruct Hrun as (H1 & H2 & H3).
  assert (sends_left (pc_of t w) <= 1)%nat by (destruct (pc_of t w); cbn; lia).
  split; [destruct (pc_of t w); lia|]. split; [lia|].
  intros Htcp. specialize (H3 Htcp). destruct (pc_of t w); lia.
Qed.

Lemma worker_requests_accounted_witness :
  (count_action 0 SendCalled
     (trial_run Tcp (trial_init 2)
        [Run 0 true; Run 0 true; Run 1 true; Run 0 true; Run 0 false]).2
   <= count_action 0 Recorded
        (trial_run Tcp (trial_init 2)
           [Run 0 true; Run 0 true; Run 1 true; Run 0 true; Run 0 false]).2 + 1)%nat.
Proof.
  destruct (worker_requests_accounted Tcp 2
              [Run 0 true; Run 0 true; Run 1 true; Run 0 true; Run 0 false] 0%nat)
    as (_ & _ & H).
  apply H. reflexivity.
Defined.

End AccountingFacts.

Section LeavingFacts.
Import Tester.

Lemma worker_step_leaves (proto : protocol) (ok : bool) (pc : worker_pc) :
  (steps_left (worker_step proto true ok pc).1 <= steps_left pc - 1)%nat.
Proof. destruct proto, ok, pc; cbn; lia. Qed.

Lemma trial_run_leaves (proto : protocol) (schedule : list choice) (w : nat) :
  ∀ t, stop_test t = true →
    (steps_left (pc_of (trial_run proto t schedule).1 w)
     <= steps_left (pc_of t w) - turns w schedule)%nat.
Proof.
  induction schedule as [|c schedule IH]; intros t Hstop; cbn [trial_run].
  - unfold turns. cbn [fst List.filter length]. lia.
  - pose proof (trial_step_stop_kept proto t c Hstop) as Hkept.
    assert (Hstep : (steps_left (pc_of (trial_step proto t c).1 w)
                     <= steps_left (pc_of t w) - turns w [c])%nat).
    { destruct c as [|w' ok]; cbn [trial_step];
        [unfold pc_of, turns; cbn [workers fst List.filter length]; lia|].
      unfold turns. cbn [List.filter].
      destruct (workers t !! w') as [pc|] eqn:Hpc.
      - rewrite Hstop.
        pose proof (worker_step_leaves proto ok pc) as Hleave.
        destruct (worker_step proto true ok pc) as [pc' a]. cbn [fst] in *.
        unfold pc_of. cbn [workers].
        destruct (decide (w' = w)) as [->|Hne].
        + rewrite bool_decide_eq_true_2 by done.
          rewrite list_lookup_insert_eq by (by eapply lookup_lt_Some).
          rewrite Hpc. cbn [default from_option id length]. exact Hleave.
        + rewrite bool_decide_eq_false_2 by done.
          rewrite list_lookup_insert_ne by done. cbn. lia.
      - cbn [fst]. unfold pc_of.
        destruct (decide (w' = w)) as [->|Hne].
        + rewrite Hpc. cbn. lia.
        + rewrite bool_decide_eq_false_2 by done. cbn. lia. }
    destruct (trial_step proto t c) as [t' es]. cbn [fst] in *.
    specialize (IH t' Hkept).
    destruct (trial_run proto t' schedule) as [t'' es']. cbn [fst] in *.
    assert (turns w (c :: schedule) = (turns w [c] + turns w schedule)%nat).
    { unfold turns. cbn [List.filter]. destruct c as [|w' ok]; [reflexivity|].
      by destruct (bool_decide (w' = w)). }
    lia.
Qed.

(** Once the flag is up a worker leaves its loop within four of its own
    steps, whatever the other threads do in between and whether its calls
    succeed or fail, provided each call it makes returns: at most a send,
    a receive, a pause and the loop test. *)
Theorem worker_leaves_after_stop (proto : protocol) (t : trial)
    (schedule : list choice) (w : nat) :
  stop_test t = true →
  (4 <= turns w schedule)%nat →
  pc_of (trial_run proto t schedule).1 w = Finished.
Proof.
  intros Hstop Hturns.
  pose proof (trial_run_leaves proto schedule w t Hstop) as Hle.
  assert (steps_left (pc_of t w) <= 4)%nat by (destruct (pc_of t w); cbn; lia).
  destruct (pc_of (trial_run proto t schedule).1 w); cbn in Hle; try lia.
  reflexivity.
Qed.

Lemma worker_leaves_after_stop_witness :
  pc_of (trial_run Tcp {| stop_test := true; workers := [Pausing; Sending] |}
           [Run 1 true; Run 0 true; Run 1 false; Run 1 true; Run 1 true]).1 1
  = Finished.
Proof.
  apply (worker_leaves_after_stop Tcp
           {| stop_test := true; workers := [Pausing; Sending] |}
           [Run 1 true; Run 0 true; Run 1 false; Run 1 true; Run 1 true] 1).
  - reflexivity.
  - vm_compute. lia.
Defined.

End LeavingFacts.

Section MigrationFacts.
Import Machine Server.

(** Two datagrams with the same id, the first on an id the table does not
    hold: the connection is counted once; its record keeps the address of
    the first sender and takes the time of the second datagram; and each
    response goes to the sender of its own datagram, so a peer that
    changes address is answered at the new one while the table still
    shows the old one. *)
Theorem quic_same_id_twice (o : byte_order) (srv : EpollServer)
    (buffer : list cell) (a1 a2 : arrival) :
  arr_data a1 ≠ [] → arr_data a2 ≠ [] →
  datagram_id (arr_data a2) = datagram_id (arr_data a1) →
  quic_connections_map srv !! datagram_id (arr_data a1) = None →
  let first := quic_step o srv buffer a1 in
  let second := quic_step o first.1.1 first.1.2 a2 in
  quic_connections_map second.1.1 !! datagram_id (arr_data a1)
  = Some {| connection_id := datagram_id (arr_data a1);
            client_addr := arr_from a1;
            last_activity := arr_time a2;
            established := false |}
  ∧ quic_connections second.1.1 = int32 (quic_connections srv + 1)
  ∧ reply_to <$> first.2 = Some (arr_from a1)
  ∧ reply_to <$> second.2 = Some (arr_from a2).
Proof.
  intros H1 H2 Hid Hnew. cbn zeta.
  assert (Hreply : ∀ s b a, arr_data a ≠ [] →
            reply_to <$> (quic_step o s b a).2 = Some (arr_from a)).
  { intros s b a Ha. pose proof (quic_step_reply o s b a) as Hr.
    destruct (arr_data a) as [|x l] eqn:Hd; [done|]. cbn [nonempty] in Hr.
    destruct (quic_step o s b a).2 as [r|]; [|discriminate].
    cbn in *. by injection Hr as -> _. }
  split; [|split; [|split]]; try by apply Hreply.
  - rewrite (quic_step_server o _ _ a2), (quic_step_server o srv buffer a1).
    destruct (arr_data a1) as [|x1 l1] eqn:Hd1; [done|].
    destruct (arr_data a2) as [|x2 l2] eqn:Hd2; [done|].
    rewrite Hid.
    rewrite (quic_track_new srv _ _ _ Hnew).
    erewrite quic_track_seen; [|cbn; apply lookup_insert_eq].
    cbn. by rewrite lookup_insert_eq.
  - rewrite (quic_step_server o _ _ a2), (quic_step_server o srv buffer a1).
    destruct (arr_data a1) as [|x1 l1] eqn:Hd1; [done|].
    destruct (arr_data a2) as [|x2 l2] eqn:Hd2; [done|].
    rewrite Hid.
    rewrite (quic_track_new srv _ _ _ Hnew).
    erewrite quic_track_seen; [|cbn; apply lookup_insert_eq].
    reflexivity.
Qed.

Lemma quic_same_id_twice_witness :
  quic_connections
    (quic_step LittleEndian
       (quic_step LittleEndian EpollServer_new (uninitialised BUFFER_SIZE)
          datagram_7_hi).1.1
       (quic_step LittleEndian EpollServer_new (uninitialised BUFFER_SIZE)
          datagram_7_hi).1.2
       datagram_1023).1.1
  = 1.
Proof.
  destruct (quic_same_id_twice LittleEndian EpollServer_new
              (uninitialised BUFFER_SIZE) datagram_7_hi datagram_1023)
    as (_ & H & _).
  - discriminate.
  - discriminate.
  - reflexivity.
  - apply lookup_empty.
  - exact H.
Defined.

End MigrationFacts.
